(** * Tracking-and-kinematics engine of the webcam detector

    A shallow embedding of [src/utils/speedCalculation.ts] and of the
    state updater of [startDetection] in [src/components/Camera.tsx],
    with the properties of the engine proved over it.

    Modelling of JavaScript numbers.  Two embeddings are used.

    In [JS], a [number] is either [NaN] or a finite value, and finite
    values are exact reals: arithmetic on them neither rounds nor
    overflows, so the only non-finite value of that model is [NaN].
    Comparisons with [NaN] are false, as in the source language.
    Division by a zero divisor yields [NaN] there (the source language
    yields an infinity or [NaN]).  The tracking cycle, the decision
    table and the range of the speed are stated over [JS].

    In [B64], a [number] is an IEEE 754 binary64 value, as the source
    language has it: every operation rounds to nearest, ties to even,
    and the infinities, the two zeros and NaN are values.  The value
    that [calculateSpeed] returns, where rounding decides, is stated
    over [B64]. *)

From Stdlib Require Import Reals Lra Lia Ascii String ZArith Bool Arith List Sorted.
From Stdlib Require Floats Uint63.
Import ListNotations.

(** ** Numbers *)

Module JS.

Inductive number : Type :=
| NaN : number
| Num : R -> number.

Definition lift2 (f : R -> R -> R) (a b : number) : number :=
  match a, b with
  | Num u, Num v => Num (f u v)
  | _, _ => NaN
  end.

Definition add : number -> number -> number := lift2 Rplus.
Definition sub : number -> number -> number := lift2 Rminus.
Definition mul : number -> number -> number := lift2 Rmult.

Definition div (a b : number) : number :=
  match a, b with
  | Num u, Num v => if Req_dec_T v 0 then NaN else Num (u / v)
  | _, _ => NaN
  end.

(** [a < b] and [a > b]; false as soon as an operand is [NaN]. *)
Definition lt (a b : number) : bool :=
  match a, b with
  | Num u, Num v => if Rlt_dec u v then true else false
  | _, _ => false
  end.

Definition gt (a b : number) : bool := lt b a.

Definition Math_abs (a : number) : number :=
  match a with
  | Num u => Num (Rabs u)
  | NaN => NaN
  end.

Definition Math_sqrt (a : number) : number :=
  match a with
  | Num u => if Rlt_dec u 0 then NaN else Num (sqrt u)
  | NaN => NaN
  end.

(** [Math.round]: the nearest integer, a tie going to the larger one,
    that is [floor (u + 1/2)]. *)
Definition Math_round (a : number) : number :=
  match a with
  | Num u => Num (IZR (Int_part (u + / 2)))
  | NaN => NaN
  end.

(** The length of an array, as a number. *)
Definition of_nat (n : nat) : number := Num (INR n).

(** [arr.slice(-n)]: the last [n] elements, all of them when there are
    fewer. *)
Definition slice_last {A : Type} (n : nat) (l : list A) : list A :=
  skipn (length l - n) l.

(** [arr[i]] read as a number: a missing element is [undefined], which
    arithmetic turns into [NaN]. *)
Definition index (l : list number) (i : nat) : number := nth i l NaN.

End JS.

Import JS.

Declare Scope js_scope.
Delimit Scope js_scope with js.
Bind Scope js_scope with number.
Infix "+" := add : js_scope.
Infix "-" := sub : js_scope.
Infix "*" := mul : js_scope.
Infix "/" := div : js_scope.
Infix "<?" := lt : js_scope.
Infix ">?" := gt : js_scope.

(** ** speedCalculation.ts *)

Module Position.
Record t : Type := mk { x : number; y : number; timestamp : number }.
End Position.

Definition PIXEL_TO_METER : number := Num (15 / 1000).
Definition MS_TO_KMH : number := Num (36 / 10).
Definition MIN_MOVEMENT_THRESHOLD : number := Num 2.
Definition MAX_SPEED_THRESHOLD : number := Num 30.
Definition SPEED_SMOOTHING_WINDOW : nat := 3.

Section SpeedLoop.
Local Open Scope js_scope.

Definition pixelDistance (prev curr : Position.t) : number :=
  let dx := Position.x curr - Position.x prev in
  let dy := Position.y curr - Position.y prev in
  Math_sqrt (dx * dx + dy * dy).

Definition elapsedSeconds (prev curr : Position.t) : number :=
  (Position.timestamp curr - Position.timestamp prev) / Num 1000.

Definition instantSpeed (prev curr : Position.t) : number :=
  (pixelDistance prev curr * PIXEL_TO_METER / elapsedSeconds prev curr)
  * MS_TO_KMH.

(** One iteration of the loop of [calculateSpeed], at
    [prev = positions[i-1]] and [curr = positions[i]]; [speeds] is the
    array built so far. *)
Definition speedStep (speeds : list number) (prev curr : Position.t)
  : list number :=
  let distance := pixelDistance prev curr in
  let timeDiff := elapsedSeconds prev curr in
  if (distance >? MIN_MOVEMENT_THRESHOLD) && (timeDiff >? Num 0) then
    let speed := (distance * PIXEL_TO_METER / timeDiff) * MS_TO_KMH in
    if speed <? MAX_SPEED_THRESHOLD then (speeds ++ [speed])%list
    else speeds
  else speeds.

(** The loop [for (i = 1; i < positions.length; i++)], entered with
    [prev = positions[i-1]] and [rest] the elements from index [i] on. *)
Fixpoint speedLoop (speeds : list number) (prev : Position.t)
  (rest : list Position.t) : list number :=
  match rest with
  | [] => speeds
  | curr :: rest' => speedLoop (speedStep speeds prev curr) curr rest'
  end.

Definition collectSpeeds (positions : list Position.t) : list number :=
  match positions with
  | [] => []
  | p0 :: rest => speedLoop [] p0 rest
  end.

Definition calculateSpeed (positions : list Position.t) : number :=
  if (length positions <? 2)%nat then Num 0
  else
    let speeds := collectSpeeds positions in
    if (length speeds =? 0)%nat then Num 0
    else
      let recentSpeeds := slice_last SPEED_SMOOTHING_WINDOW speeds in
      let averageSpeed :=
        fold_left add recentSpeeds (Num 0) / of_nat (length recentSpeeds) in
      Math_round averageSpeed.

(** One iteration of the loop of [determineAction]; the state is the
    pair [(verticalMovement, horizontalMovement)]. *)
Definition movementStep (acc : number * number) (prev curr : Position.t)
  : number * number :=
  (fst acc + Math_abs (Position.y curr - Position.y prev),
   snd acc + Math_abs (Position.x curr - Position.x prev)).

Fixpoint movementLoop (acc : number * number) (prev : Position.t)
  (rest : list Position.t) : number * number :=
  match rest with
  | [] => acc
  | curr :: rest' => movementLoop (movementStep acc prev curr) curr rest'
  end.

Definition recentMovement (positions : list Position.t) : number * number :=
  match slice_last 3 positions with
  | [] => (Num 0, Num 0)
  | p0 :: rest => movementLoop (Num 0, Num 0) p0 rest
  end.

Definition determineAction (positions : list Position.t) (speed : number)
  : string :=
  if (length positions <? 2)%nat then "stationary"%string
  else
    let '(verticalMovement, horizontalMovement) := recentMovement positions in
    if speed <? Num 1 then
      if verticalMovement <? MIN_MOVEMENT_THRESHOLD * Num 2 then
        "sitting"%string
      else "standing"%string
    else if speed <? Num 3 then
      if verticalMovement >? horizontalMovement then "standing"%string
      else "walking slowly"%string
    else if speed <? Num 8 then "walking"%string
    else if speed <? Num 15 then "walking fast"%string
    else "running"%string.

End SpeedLoop.

(** ** Camera.tsx *)

Module Detection.
Record t : Type := mk { bbox : list number; class : string; score : number }.
End Detection.

Module TrackedObject.
Record t : Type := mk {
  id : string;
  class : string;
  positions : list Position.t;
  speed : number;
  bbox : list number;
  score : number;
  action : string;
  lastUpdate : number
}.
End TrackedObject.

Definition POSITION_HISTORY : nat := 15.
Definition OBJECT_TIMEOUT : number := Num 1000.

(** The sequence of values that successive calls of [Math.random()]
    return, each already rendered as the text that a template string
    inserts; the engine counts the calls made so far. *)
Definition RandomSource : Type := nat -> string.

Section Cycle.
Local Open Scope js_scope.

Variable random : RandomSource.

(** The predicate handed to [prevObjects.find]. *)
Definition sameObject (pred : Detection.t) (centerX centerY : number)
  (obj : TrackedObject.t) : bool :=
  String.eqb (TrackedObject.class obj) (Detection.class pred)
  && (Math_abs (index (TrackedObject.bbox obj) 0
                + index (TrackedObject.bbox obj) 2 / Num 2 - centerX)
      <? Num 50)
  && (Math_abs (index (TrackedObject.bbox obj) 1
                + index (TrackedObject.bbox obj) 3 / Num 2 - centerY)
      <? Num 50).

Definition centerOf (box : list number) : number * number :=
  let x := index box 0 in
  let y := index box 1 in
  let width := index box 2 in
  let height := index box 3 in
  (x + width / Num 2, y + height / Num 2).

Definition existingObject (prevObjects : list TrackedObject.t)
  (pred : Detection.t) : option TrackedObject.t :=
  let '(centerX, centerY) := centerOf (Detection.bbox pred) in
  find (sameObject pred centerX centerY) prevObjects.

(** [positions.push(sample)] followed by the bounded [shift()]. *)
Definition pushPosition (positions : list Position.t) (sample : Position.t)
  : list Position.t :=
  let positions := (positions ++ [sample])%list in
  if (POSITION_HISTORY <? length positions)%nat then tl positions
  else positions.

(** [existingObject?.id || `${pred.class}-${Math.random()}`]: the
    right operand, and with it the call of [Math.random], is evaluated
    only when the left one is [undefined] or the empty string. *)
Definition chooseId (existing : option TrackedObject.t) (pred : Detection.t)
  (calls : nat) : string * nat :=
  let fresh :=
    ((Detection.class pred ++ "-" ++ random calls)%string, S calls) in
  match existing with
  | Some obj =>
      match TrackedObject.id obj with
      | EmptyString => fresh
      | String _ _ => (TrackedObject.id obj, calls)
      end
  | None => fresh
  end.

(** The callback of [predictions.map]. *)
Definition trackPrediction (prevObjects : list TrackedObject.t)
  (currentTime : number) (pred : Detection.t) (calls : nat)
  : TrackedObject.t * nat :=
  let '(centerX, centerY) := centerOf (Detection.bbox pred) in
  let existing := existingObject prevObjects pred in
  let positions :=
    pushPosition
      (match existing with
       | Some obj => TrackedObject.positions obj
       | None => []
       end)
      (Position.mk centerX centerY currentTime) in
  let speed := calculateSpeed positions in
  let action := determineAction positions speed in
  let '(id, calls') := chooseId existing pred calls in
  (TrackedObject.mk id (Detection.class pred) positions speed
     (Detection.bbox pred) (Detection.score pred) action currentTime,
   calls').

Fixpoint mapPredictions (prevObjects : list TrackedObject.t)
  (currentTime : number) (predictions : list Detection.t) (calls : nat)
  : list TrackedObject.t * nat :=
  match predictions with
  | [] => ([], calls)
  | pred :: rest =>
      let '(obj, calls1) := trackPrediction prevObjects currentTime pred calls in
      let '(objs, calls2) := mapPredictions prevObjects currentTime rest calls1 in
      (obj :: objs, calls2)
  end.

Definition isFresh (currentTime : number) (obj : TrackedObject.t) : bool :=
  currentTime - TrackedObject.lastUpdate obj <? OBJECT_TIMEOUT.

(** The state of the engine: the tracked objects held by the component
    and the number of calls of [Math.random] made so far. *)
Record Engine : Type := mkEngine {
  trackedObjects : list TrackedObject.t;
  randomCalls : nat
}.

Definition initialEngine : Engine := mkEngine [] 0.

(** The updater passed to [setTrackedObjects]; [now] is the integer
    that [Date.now()] returned for this cycle. *)
Definition updateTrackedObjects (st : Engine)
  (predictions : list Detection.t) (now : Z) : Engine :=
  let currentTime := Num (IZR now) in
  let '(updatedObjects, calls) :=
    mapPredictions (trackedObjects st) currentTime predictions
      (randomCalls st) in
  mkEngine (filter (isFresh currentTime) updatedObjects) calls.

(** Successive cycles; the result lists the tracked objects published
    after each of them. *)
Fixpoint runCycles (st : Engine) (cycles : list (list Detection.t * Z))
  : list (list TrackedObject.t) :=
  match cycles with
  | [] => []
  | (predictions, now) :: rest =>
      let st' := updateTrackedObjects st predictions now in
      trackedObjects st' :: runCycles st' rest
  end.

End Cycle.

(** ** The specification's wording of the kinematics *)

Section SpecWording.
Local Open Scope js_scope.

(** The absolute deltas of one coordinate between consecutive samples. *)
Fixpoint absDeltas (coord : Position.t -> number) (l : list Position.t)
  : list number :=
  match l with
  | [] => []
  | prev :: rest =>
      match rest with
      | [] => []
      | curr :: _ => Math_abs (coord curr - coord prev) :: absDeltas coord rest
      end
  end.

Definition total (l : list number) : number := fold_right add (Num 0) l.

Definition verticalMovementOf (positions : list Position.t) : number :=
  total (absDeltas Position.y (slice_last 3 positions)).

Definition horizontalMovementOf (positions : list Position.t) : number :=
  total (absDeltas Position.x (slice_last 3 positions)).

(** The ordered decision table: the first row that applies wins. *)
Definition actionTable (samples : nat) (speed vertical horizontal : number)
  : string :=
  if (samples <? 2)%nat then "stationary"%string
  else if (speed <? Num 1) && (vertical <? Num 4) then "sitting"%string
  else if speed <? Num 1 then "standing"%string
  else if (speed <? Num 3) && (vertical >? horizontal) then "standing"%string
  else if speed <? Num 3 then "walking slowly"%string
  else if speed <? Num 8 then "walking"%string
  else if speed <? Num 15 then "walking fast"%string
  else "running"%string.

(** The consecutive pairs of a history, oldest first. *)
Fixpoint consecutivePairs (l : list Position.t)
  : list (Position.t * Position.t) :=
  match l with
  | [] => []
  | prev :: rest =>
      match rest with
      | [] => []
      | curr :: _ => (prev, curr) :: consecutivePairs rest
      end
  end.

(** A pair survives the filters when it moved more than the movement
    threshold in a positive time and its speed is below the cutoff. *)
Definition survives (pair : Position.t * Position.t) : bool :=
  let '(prev, curr) := pair in
  (pixelDistance prev curr >? MIN_MOVEMENT_THRESHOLD)
  && (elapsedSeconds prev curr >? Num 0)
  && (instantSpeed prev curr <? MAX_SPEED_THRESHOLD).

Definition speedOfPair (pair : Position.t * Position.t) : number :=
  instantSpeed (fst pair) (snd pair).

(** The instantaneous speeds of the pairs that survive, oldest first. *)
Definition survivingSpeeds (positions : list Position.t) : list number :=
  map speedOfPair (filter survives (consecutivePairs positions)).

(** A speed that may enter the average: finite, positive, below the
    cutoff. *)
Definition plausible (s : number) : Prop :=
  exists r : R, s = Num r /\ (0 < r < 30)%R.

Definition average (l : list number) : number :=
  total l / of_nat (length l).

End SpecWording.

(** ** Notions used to state the properties of the engine *)

(** The gate of the association as the specification words it: the same
    class, and both centres finite with each coordinate less than 50
    pixels apart. *)
Definition withinGate (pred : Detection.t) (obj : TrackedObject.t) : Prop :=
  TrackedObject.class obj = Detection.class pred
  /\ exists ox oy px py : R,
      centerOf (TrackedObject.bbox obj) = (Num ox, Num oy)
      /\ centerOf (Detection.bbox pred) = (Num px, Num py)
      /\ (Rabs (ox - px) < 50)%R /\ (Rabs (oy - py) < 50)%R.

(** A detection one of whose four bounding-box fields is missing or
    [NaN]. *)
Definition malformed (pred : Detection.t) : Prop :=
  exists i : nat, (i < 4)%nat /\ index (Detection.bbox pred) i = NaN.

Definition boundedHistory (obj : TrackedObject.t) : Prop :=
  (length (TrackedObject.positions obj) <= POSITION_HISTORY)%nat.

Definition ids (objs : list TrackedObject.t) : list string :=
  map TrackedObject.id objs.

(** The identifier that [random] gives a new track of the class of
    [pred] at its call number [k]. *)
Definition freshId (random : RandomSource) (pred : Detection.t) (k : nat)
  : string :=
  (Detection.class pred ++ "-" ++ random k)%string.

(** A record without its identifier. *)
Definition eraseId (obj : TrackedObject.t) : TrackedObject.t :=
  TrackedObject.mk EmptyString (TrackedObject.class obj)
    (TrackedObject.positions obj) (TrackedObject.speed obj)
    (TrackedObject.bbox obj) (TrackedObject.score obj)
    (TrackedObject.action obj) (TrackedObject.lastUpdate obj).

Definition speedAndAction (obj : TrackedObject.t) : number * string :=
  (TrackedObject.speed obj, TrackedObject.action obj).

(** The position sample that a cycle at [currentTime] records for
    [pred], and the history that the cycle gives its record. *)
Definition sampleOf (pred : Detection.t) (currentTime : number) : Position.t :=
  Position.mk (fst (centerOf (Detection.bbox pred)))
    (snd (centerOf (Detection.bbox pred))) currentTime.

Definition historyOf (prev : list TrackedObject.t) (pred : Detection.t)
  (currentTime : number) : list Position.t :=
  pushPosition
    (match existingObject prev pred with
     | Some obj => TrackedObject.positions obj
     | None => []
     end)
    (sampleOf pred currentTime).

(** The record of a malformed detection. *)
Definition strayRecord (random : RandomSource) (pred : Detection.t)
  (currentTime : number) (calls : nat) : TrackedObject.t :=
  TrackedObject.mk (freshId random pred calls) (Detection.class pred)
    [sampleOf pred currentTime] (Num 0) (Detection.bbox pred)
    (Detection.score pred) "stationary" currentTime.

(** The identifier that a detection inherits from the previous set: that
    of the track it is associated with, when that identifier is not
    empty. *)
Definition inheritedId (prev : list TrackedObject.t) (pred : Detection.t)
  : option string :=
  match existingObject prev pred with
  | Some obj =>
      match TrackedObject.id obj with
      | EmptyString => None
      | String _ _ => Some (TrackedObject.id obj)
      end
  | None => None
  end.

(** Two records of the detection [pred] that agree on every field but
    the identifier, and on the identifier too when it is inherited;
    when it is drawn, [later] has it from the call that follows the
    call that gave it to [sooner]. *)
Definition sameButDrawnLater (random : RandomSource)
  (prev : list TrackedObject.t) (pred : Detection.t)
  (later sooner : TrackedObject.t) : Prop :=
  eraseId later = eraseId sooner
  /\ match inheritedId prev pred with
     | Some i => TrackedObject.id later = i /\ TrackedObject.id sooner = i
     | None =>
         exists k,
           TrackedObject.id later = freshId random pred (S k)
           /\ TrackedObject.id sooner = freshId random pred k
     end.

(** ** Sample inputs *)

Module Scene.

(** Two samples [d] pixels apart horizontally and one second apart. *)
Definition moveStart (x y t : R) : Position.t :=
  Position.mk (Num x) (Num y) (Num t).
Definition moveEnd (x y t d : R) : Position.t :=
  Position.mk (Num (x + d)) (Num y) (Num (t + 1000)).

(** A random source that returns the same value at every call. *)
Definition fives : RandomSource := fun _ => "5"%string.

Definition box (u v : R) : list number := [Num u; Num v; Num 20; Num 20].

(** A person track centred at (100,100) and two person detections
    within its gate. *)
Definition track7 : TrackedObject.t :=
  TrackedObject.mk "person-7" "person"
    [Position.mk (Num 100) (Num 100) (Num 0)] (Num 0) (box 90 90) (Num 1)
    "stationary" (Num 0).
Definition firstPerson : Detection.t :=
  Detection.mk (box 95 90) "person" (Num 1).
Definition secondPerson : Detection.t :=
  Detection.mk (box 85 90) "person" (Num 1).

(** Person tracks centred at (200,100), (130,120) and (140,140), and a
    person detection centred at (100,100). *)
Definition farTrack : TrackedObject.t :=
  TrackedObject.mk "person-1" "person" [] (Num 0) (box 190 90) (Num 1)
    "stationary" (Num 0).
Definition nearTrack : TrackedObject.t :=
  TrackedObject.mk "person-2" "person" [] (Num 0) (box 120 110) (Num 1)
    "stationary" (Num 0).
Definition cornerTrack : TrackedObject.t :=
  TrackedObject.mk "person-3" "person" [] (Num 0) (box 130 130) (Num 1)
    "stationary" (Num 0).
Definition centredPerson : Detection.t :=
  Detection.mk (box 90 90) "person" (Num 1).

(** A cat track and a later cat detection elsewhere in the frame. *)
Definition cat9 : TrackedObject.t :=
  TrackedObject.mk "cat-9" "cat" [Position.mk (Num 100) (Num 100) (Num 0)]
    (Num 0) (box 90 90) (Num 1) "stationary" (Num 0).
Definition catAgain : Detection.t :=
  Detection.mk (box 400 300) "cat" (Num 1).

(** A person detection whose first bounding-box field is [NaN]. *)
Definition nanPerson : Detection.t :=
  Detection.mk [NaN; Num 0; Num 10; Num 10] "person" (Num 1).

Definition still : Position.t := Position.mk (Num 1) (Num 1) (Num 1).

End Scene.

(** ** ObjectTracker.tsx *)

Section Labels.
Local Open Scope js_scope.

(** The text that a template string inserts for a number. *)
Variable numberText : number -> string.


(** The label that the effect of [ObjectTracker] writes above a box. *)
Definition speedText (obj : TrackedObject.t) : string :=
  if TrackedObject.speed obj >? Num 0 then
    (" - " ++ numberText (TrackedObject.speed obj) ++ " km/h")%string
  else EmptyString.

Definition label (obj : TrackedObject.t) : string :=
  (TrackedObject.class obj ++ " (" ++ TrackedObject.action obj ++ ")"
   ++ speedText obj)%string.

End Labels.

(** ** Further notions *)

(** The Euclidean distance in pixels and the elapsed milliseconds
    between two samples with finite fields. *)
Definition pixels (x0 y0 x1 y1 : R) : R :=
  sqrt ((x1 - x0) * (x1 - x0) + (y1 - y0) * (y1 - y0)).

Definition finiteSample (x y t : R) : Position.t :=
  Position.mk (Num x) (Num y) (Num t).

(** A sample that lies at the finite point [(x, y)]. *)
Definition restsAt (x y : R) (p : Position.t) : Prop :=
  Position.x p = Num x /\ Position.y p = Num y.

(** Four samples of a steady move of 10 pixels every 33 ms. *)
Definition jog : list Position.t :=
  [finiteSample 0 0 0; finiteSample (0 + 10) 0 (0 + 33);
   finiteSample (0 + 10 + 10) 0 (0 + 33 + 33);
   finiteSample (0 + 10 + 10 + 10) 0 (0 + 33 + 33 + 33)].

(** A random source that never returns the same text twice. *)
Fixpoint tally (k : nat) : string :=
  match k with
  | O => EmptyString
  | S k' => String "1"%char (tally k')
  end.

(** Two detections of one class whose centres are finite and less than
    50 pixels apart on each axis. *)
Definition follows (pred next : Detection.t) : Prop :=
  Detection.class pred = Detection.class next
  /\ exists ox oy px py : R,
      centerOf (Detection.bbox pred) = (Num ox, Num oy)
      /\ centerOf (Detection.bbox next) = (Num px, Num py)
      /\ (Rabs (ox - px) < 50)%R /\ (Rabs (oy - py) < 50)%R.

(** A sequence of sightings of one object, each following the one
    before it. *)
Fixpoint trail (pred : Detection.t) (rest : list (Detection.t * Z)) : Prop :=
  match rest with
  | [] => True
  | (next, _) :: rest' => follows pred next /\ trail next rest'
  end.

(** The cycles in which the detector reports that one object alone. *)
Definition soloCycles (sightings : list (Detection.t * Z))
  : list (list Detection.t * Z) :=
  map (fun sighting => ([fst sighting], snd sighting)) sightings.

(** A detection that no previous track qualifies for. *)
Definition unmatched (prev : list TrackedObject.t) (pred : Detection.t)
  : bool :=
  match existingObject prev pred with
  | Some _ => false
  | None => true
  end.

(** A history whose timestamps are integers in ascending order, none
    of them later than [bound]. *)
Definition chronological (bound : Z) (h : list Position.t) : Prop :=
  exists ts : list Z,
    map Position.timestamp h = map (fun z => Num (IZR z)) ts
    /\ StronglySorted Z.le ts
    /\ Forall (fun z => (z <= bound)%Z) ts.

(** What a cycle reads of a previous record. *)
Definition core (obj : TrackedObject.t)
  : string * list number * list Position.t :=
  (TrackedObject.class obj, TrackedObject.bbox obj,
   TrackedObject.positions obj).

(** The labels that [determineAction] can return. *)
Definition actionLabels : list string :=
  ["stationary"; "sitting"; "standing"; "walking slowly"; "walking";
   "walking fast"; "running"]%string.

(** ** speedCalculation.ts in binary64

    [calculateSpeed] once more, now over the numbers of the source
    language themselves: IEEE 754 binary64 values with their rounding,
    infinities and [NaN].  The statements on which rounding decides,
    which pair passes the cutoff and which way an average rounds, are
    made on this embedding. *)

Module B64.

Import SpecFloat.

#[local] Set Warnings "-inexact-float".

Definition number : Type := PrimFloat.float.

Import PrimFloat.
Local Notation "a >? b" := (PrimFloat.ltb b a) (at level 70) : float_scope.

(** An integer as a number; exact below 2^53 in absolute value. *)
Definition of_Z (z : Z) : number :=
  match z with
  | Z0 => PrimFloat.zero
  | Zpos _ => PrimFloat.of_uint63 (Uint63.of_Z z)
  | Zneg _ => PrimFloat.opp (PrimFloat.of_uint63 (Uint63.of_Z (Z.opp z)))
  end.

(** The length of an array, as a number. *)
Definition of_nat (n : nat) : number := of_Z (Z.of_nat n).

Definition Math_sqrt (a : number) : number := PrimFloat.sqrt a.

(** [Math.round]: a value that is not finite or is integral is
    returned as it is; any other value [±m / 2^k] goes to the nearest
    integer, a tie going to the larger one, that is to
    [floor (±m / 2^k + 1/2)], and to the zero of its own sign when that
    integer is 0. *)
Definition Math_round (a : number) : number :=
  match FloatOps.Prim2SF a with
  | S754_finite s m (Zneg k) =>
      let r :=
        Z.div (2 * cond_Zopp s (Zpos m) + Z.pow 2 (Zpos k))
          (Z.pow 2 (Zpos k + 1)) in
      match r with
      | Z0 => if s then PrimFloat.neg_zero else PrimFloat.zero
      | _ => of_Z r
      end
  | _ => a
  end.

(** [Number.isFinite]. *)
Definition isFinite (a : number) : bool :=
  match FloatOps.Prim2SF a with
  | S754_zero _ | S754_finite _ _ _ => true
  | S754_infinity _ | S754_nan => false
  end.

Module Position.
Record t : Type := mk { x : number; y : number; timestamp : number }.
End Position.

Definition PIXEL_TO_METER : number := 0.015%float.
Definition MS_TO_KMH : number := 3.6%float.
Definition MIN_MOVEMENT_THRESHOLD : number := 2%float.
Definition MAX_SPEED_THRESHOLD : number := 30%float.
Definition SPEED_SMOOTHING_WINDOW : nat := 3.

Section SpeedLoop.
Local Open Scope float_scope.

Definition pixelDistance (prev curr : Position.t) : number :=
  let dx := Position.x curr - Position.x prev in
  let dy := Position.y curr - Position.y prev in
  Math_sqrt (dx * dx + dy * dy).

Definition elapsedSeconds (prev curr : Position.t) : number :=
  (Position.timestamp curr - Position.timestamp prev) / 1000.

Definition instantSpeed (prev curr : Position.t) : number :=
  (pixelDistance prev curr * PIXEL_TO_METER / elapsedSeconds prev curr)
  * MS_TO_KMH.

(** One iteration of the loop of [calculateSpeed]. *)
Definition speedStep (speeds : list number) (prev curr : Position.t)
  : list number :=
  let distance := pixelDistance prev curr in
  let timeDiff := elapsedSeconds prev curr in
  if (distance >? MIN_MOVEMENT_THRESHOLD) && (timeDiff >? 0) then
    let speed := (distance * PIXEL_TO_METER / timeDiff) * MS_TO_KMH in
    if speed <? MAX_SPEED_THRESHOLD then (speeds ++ [speed])%list
    else speeds
  else speeds.

Fixpoint speedLoop (speeds : list number) (prev : Position.t)
  (rest : list Position.t) : list number :=
  match rest with
  | [] => speeds
  | curr :: rest' => speedLoop (speedStep speeds prev curr) curr rest'
  end.

Definition collectSpeeds (positions : list Position.t) : list number :=
  match positions with
  | [] => []
  | p0 :: rest => speedLoop [] p0 rest
  end.

Definition calculateSpeed (positions : list Position.t) : number :=
  if (length positions <? 2)%nat then 0
  else
    let speeds := collectSpeeds positions in
    if (length speeds =? 0)%nat then 0
    else
      let recentSpeeds := slice_last SPEED_SMOOTHING_WINDOW speeds in
      let averageSpeed :=
        fold_left PrimFloat.add recentSpeeds 0 / of_nat (length recentSpeeds) in
      Math_round averageSpeed.

(** The wording of the specification. *)

Fixpoint consecutivePairs (l : list Position.t)
  : list (Position.t * Position.t) :=
  match l with
  | [] => []
  | prev :: rest =>
      match rest with
      | [] => []
      | curr :: _ => (prev, curr) :: consecutivePairs rest
      end
  end.

Definition survives (pair : Position.t * Position.t) : bool :=
  let '(prev, curr) := pair in
  (pixelDistance prev curr >? MIN_MOVEMENT_THRESHOLD)
  && (elapsedSeconds prev curr >? 0)
  && (instantSpeed prev curr <? MAX_SPEED_THRESHOLD).

Definition speedOfPair (pair : Position.t * Position.t) : number :=
  instantSpeed (fst pair) (snd pair).

Definition survivingSpeeds (positions : list Position.t) : list number :=
  map speedOfPair (filter survives (consecutivePairs positions)).

(** The average as the source forms it: the sum taken from the left,
    starting at 0, divided by the count. *)
Definition average (l : list number) : number :=
  fold_left PrimFloat.add l 0 / of_nat (length l).

End SpeedLoop.

(** A sample with integer fields. *)
Definition sample (x y t : Z) : Position.t :=
  Position.mk (of_Z x) (of_Z y) (of_Z t).

(** The sign-and-mantissa form of a number: it is a zero or a finite
    value of sign [s], and below [2 ^ B] in absolute value. *)
Definition magnitude (s : bool) (B : Z) (x : spec_float) : Prop :=
  match x with
  | S754_zero s' => s' = s
  | S754_finite s' m e => s' = s /\ (Zpos m < 2 ^ (B - e))%Z
  | _ => False
  end.

(** It is NaN or has sign [s]. *)
Definition signed (s : bool) (x : spec_float) : Prop :=
  match x with
  | S754_nan => True
  | S754_zero s' | S754_infinity s' | S754_finite s' _ _ => s' = s
  end.

End B64.

(** ** Facts on numbers *)

Ltac decide_order :=
  repeat match goal with
         | |- context [Rlt_dec ?a ?b] => destruct (Rlt_dec a b); try lra
         | |- context [Req_dec_T ?a ?b] => destruct (Req_dec_T a b); try lra
         end.

Lemma lt_Num (u v : R) : lt (Num u) (Num v) = true <-> (u < v)%R.
Proof.
  unfold lt. destruct (Rlt_dec u v); split; intros; try easy.
Qed.

Lemma lt_true_inv (a b : number) :
  lt a b = true -> exists u v, a = Num u /\ b = Num v /\ (u < v)%R.
Proof.
  destruct a as [|u], b as [|v]; simpl; try discriminate.
  intros H. exists u, v. repeat split. now apply lt_Num.
Qed.

Lemma add_assoc (a b c : number) : add a (add b c) = add (add a b) c.
Proof.
  destruct a, b, c; simpl; try reflexivity. f_equal. ring.
Qed.

Lemma add_0_l (a : number) : add (Num 0) a = a.
Proof. destruct a; simpl; try reflexivity. f_equal. ring. Qed.

Lemma Int_part_unique (u : R) (z : Z) :
  (IZR z <= u < IZR z + 1)%R -> Int_part u = z.
Proof.
  intros [Hlo Hhi].
  destruct (base_Int_part u) as [H1 H2].
  assert (Hlt1 : (IZR (Int_part u) < IZR (z + 1))%R) by (rewrite plus_IZR; lra).
  assert (Hlt2 : (IZR z < IZR (Int_part u + 1))%R) by (rewrite plus_IZR; lra).
  apply lt_IZR in Hlt1, Hlt2. lia.
Qed.

Lemma add_0_r (a : number) : add a (Num 0) = a.
Proof. destruct a; simpl; try reflexivity. f_equal. ring. Qed.

(** ** determineAction *)

Lemma movementLoop_total (rest : list Position.t) :
  forall (acc : number * number) (prev : Position.t),
    movementLoop acc prev rest
    = (add (fst acc) (total (absDeltas Position.y (prev :: rest))),
       add (snd acc) (total (absDeltas Position.x (prev :: rest)))).
Proof.
  induction rest as [|curr rest IH]; intros acc prev.
  - simpl. now rewrite !add_0_r, <- surjective_pairing.
  - cbn [movementLoop]. rewrite IH. unfold movementStep.
    cbn [fst snd absDeltas total fold_right].
    now rewrite !add_assoc.
Qed.

Lemma recentMovement_sums (positions : list Position.t) :
  recentMovement positions
  = (verticalMovementOf positions, horizontalMovementOf positions).
Proof.
  unfold recentMovement, verticalMovementOf, horizontalMovementOf.
  destruct (slice_last 3 positions) as [|p0 rest]; [reflexivity|].
  rewrite movementLoop_total. cbn [fst snd]. now rewrite !add_0_l.
Qed.

Lemma threshold_doubled : mul MIN_MOVEMENT_THRESHOLD (Num 2) = Num 4.
Proof. unfold MIN_MOVEMENT_THRESHOLD. simpl. apply f_equal. ring. Qed.

Lemma determineAction_unfold (positions : list Position.t) (speed : number) :
  determineAction positions speed
  = actionTable (length positions) speed
      (verticalMovementOf positions) (horizontalMovementOf positions).
Proof.
  unfold determineAction, actionTable.
  rewrite recentMovement_sums, threshold_doubled.
  destruct (length positions <? 2)%nat; [reflexivity|].
  destruct (lt speed (Num 1)); [now destruct (lt _ (Num 4))|].
  cbn [andb].
  destruct (lt speed (Num 3)); [|reflexivity].
  cbn [andb]. reflexivity.
Qed.

(** C1. [determineAction] returns the label of the ordered decision
    table over the speed and the two movement sums of the last three
    positions: fewer than two positions give stationary; otherwise
    speed < 1 gives sitting when the vertical sum is below 4 and
    standing when it is not; speed < 3 gives standing when the vertical
    sum exceeds the horizontal one and walking slowly when it does not;
    then walking below 8, walking fast below 15, and running.  In
    particular a speed of 0.5 gives sitting with a vertical sum of 2 and
    standing with a vertical sum of 10, a speed of 10 gives walking
    fast and a speed of 20 gives running. *)
Theorem determineAction_decision_table :
  (forall positions speed,
      determineAction positions speed
      = actionTable (length positions) speed
          (verticalMovementOf positions) (horizontalMovementOf positions))
  /\ (forall positions,
        (2 <= length positions)%nat ->
        (verticalMovementOf positions = Num 2 ->
         determineAction positions (Num (1 / 2)) = "sitting"%string)
        /\ (verticalMovementOf positions = Num 10 ->
            determineAction positions (Num (1 / 2)) = "standing"%string)
        /\ determineAction positions (Num 10) = "walking fast"%string
        /\ determineAction positions (Num 20) = "running"%string).
Proof.
  split; [exact determineAction_unfold|].
  intros positions Hlen.
  rewrite !determineAction_unfold.
  assert (Hn : (length positions <? 2)%nat = false)
    by (apply Nat.ltb_ge; exact Hlen).
  unfold actionTable. rewrite Hn.
  repeat split.
  - intros ->. unfold lt. decide_order. reflexivity.
  - intros ->. unfold lt. decide_order. reflexivity.
  - unfold lt. decide_order. reflexivity.
  - unfold lt. decide_order. reflexivity.
Qed.

Lemma total_single_abs (u : R) (v : R) :
  Rabs u = v -> total [Math_abs (Num u)] = Num v.
Proof.
  intros <-. unfold total. simpl. apply f_equal. ring.
Qed.

Lemma determineAction_decision_table_witness :
  determineAction
    [Position.mk (Num 0) (Num 0) (Num 0);
     Position.mk (Num 0) (Num 2) (Num 1000)] (Num (1 / 2)) = "sitting"%string
  /\ determineAction
       [Position.mk (Num 0) (Num 0) (Num 0);
        Position.mk (Num 0) (Num 10) (Num 1000)] (Num (1 / 2))
     = "standing"%string.
Proof.
  split.
  - apply (proj2 determineAction_decision_table
             [Position.mk (Num 0) (Num 0) (Num 0);
              Position.mk (Num 0) (Num 2) (Num 1000)]).
    + simpl. lia.
    + unfold verticalMovementOf. cbn [slice_last length Nat.sub skipn absDeltas].
      cbn [Position.y sub lift2]. apply total_single_abs.
      rewrite Rabs_right; lra.
  - apply (proj2 determineAction_decision_table
             [Position.mk (Num 0) (Num 0) (Num 0);
              Position.mk (Num 0) (Num 10) (Num 1000)]).
    + simpl. lia.
    + unfold verticalMovementOf. cbn [slice_last length Nat.sub skipn absDeltas].
      cbn [Position.y sub lift2]. apply total_single_abs.
      rewrite Rabs_right; lra.
Defined.

(** ** calculateSpeed *)

Lemma speedStep_survives (speeds : list number) (prev curr : Position.t) :
  speedStep speeds prev curr
  = if survives (prev, curr) then speeds ++ [instantSpeed prev curr]
    else speeds.
Proof.
  unfold speedStep, survives, instantSpeed.
  destruct (gt (pixelDistance prev curr) MIN_MOVEMENT_THRESHOLD);
    destruct (gt (elapsedSeconds prev curr) (Num 0)); reflexivity.
Qed.

Lemma speedLoop_surviving (rest : list Position.t) :
  forall (speeds : list number) (prev : Position.t),
    speedLoop speeds prev rest = speeds ++ survivingSpeeds (prev :: rest).
Proof.
  unfold survivingSpeeds.
  induction rest as [|curr rest IH]; intros speeds prev.
  - simpl. now rewrite app_nil_r.
  - cbn [speedLoop consecutivePairs]. rewrite IH, speedStep_survives.
    cbn [filter]. destruct (survives (prev, curr)); [|reflexivity].
    cbn [map]. now rewrite <- app_assoc.
Qed.

Lemma collectSpeeds_surviving (positions : list Position.t) :
  collectSpeeds positions = survivingSpeeds positions.
Proof.
  destruct positions as [|p0 rest]; [reflexivity|].
  unfold collectSpeeds. now rewrite speedLoop_surviving.
Qed.

Lemma fold_left_add_total (l : list number) :
  forall a : number, fold_left add l a = add a (total l).
Proof.
  induction l as [|b l IH]; intros a; simpl.
  - now rewrite add_0_r.
  - now rewrite IH, add_assoc.
Qed.

Lemma consecutivePairs_length (positions : list Position.t) :
  length (consecutivePairs positions) = (length positions - 1)%nat.
Proof.
  induction positions as [|p0 rest IH]; [reflexivity|].
  destruct rest as [|p1 rest]; [reflexivity|].
  cbn [consecutivePairs length] in *. rewrite IH. lia.
Qed.

(** The function, read off its source: zero below two samples or
    without a surviving pair, else the rounded average of the last three
    surviving speeds. *)
Lemma calculateSpeed_unfold (positions : list Position.t) :
  calculateSpeed positions
  = if (length positions <? 2)%nat then Num 0
    else match survivingSpeeds positions with
         | [] => Num 0
         | _ :: _ =>
             Math_round
               (average
                  (slice_last SPEED_SMOOTHING_WINDOW (survivingSpeeds positions)))
         end.
Proof.
  unfold calculateSpeed. rewrite collectSpeeds_surviving.
  destruct (length positions <? 2)%nat; [reflexivity|].
  destruct (survivingSpeeds positions) as [|s l] eqn:E; [reflexivity|].
  cbn [length Nat.eqb]. unfold average.
  now rewrite fold_left_add_total, add_0_l.
Qed.

Lemma filter_all {A : Type} (f : A -> bool) (l : list A) :
  forallb f l = true -> filter f l = l.
Proof.
  induction l as [|a l IH]; [reflexivity|].
  simpl. intros H. apply andb_prop in H as [Ha Hl].
  now rewrite Ha, IH.
Qed.

Lemma Math_sqrt_square (u v : R) :
  (0 <= v)%R -> u = (v * v)%R -> Math_sqrt (Num u) = Num v.
Proof.
  intros Hv ->. unfold Math_sqrt.
  destruct (Rlt_dec (v * v) 0) as [H|_]; [nra|].
  now rewrite sqrt_square.
Qed.

Lemma Math_round_Num (u : R) (z : Z) :
  (IZR z - / 2 <= u < IZR z + / 2)%R -> Math_round (Num u) = Num (IZR z).
Proof.
  intros H. unfold Math_round. do 2 apply f_equal.
  apply Int_part_unique. lra.
Qed.

Lemma div_Num (u v : R) : v <> 0%R -> div (Num u) (Num v) = Num (u / v).
Proof.
  intros H. unfold div. now destruct (Req_dec_T v 0).
Qed.

Section HorizontalMove.
Variables x y t d : R.
Hypothesis d_moves : (2 < d)%R.
Hypothesis d_slow : (d * (54 / 1000) < 30)%R.

Lemma horizontal_distance : pixelDistance (Scene.moveStart x y t) (Scene.moveEnd x y t d) = Num d.
Proof.
  unfold pixelDistance, Scene.moveStart, Scene.moveEnd. cbn [Position.x Position.y sub mul add lift2].
  apply Math_sqrt_square; [lra | ring].
Qed.

Lemma horizontal_elapsed : elapsedSeconds (Scene.moveStart x y t) (Scene.moveEnd x y t d) = Num 1.
Proof.
  unfold elapsedSeconds, Scene.moveStart, Scene.moveEnd. cbn [Position.timestamp sub lift2].
  rewrite div_Num by lra. apply f_equal. field.
Qed.

Lemma horizontal_speed : instantSpeed (Scene.moveStart x y t) (Scene.moveEnd x y t d) = Num (d * (54 / 1000)).
Proof.
  unfold instantSpeed. rewrite horizontal_distance, horizontal_elapsed.
  unfold PIXEL_TO_METER, MS_TO_KMH. cbn [mul lift2].
  rewrite div_Num by lra. cbn [mul lift2]. apply f_equal. field.
Qed.

Lemma horizontal_survives : survives (Scene.moveStart x y t, Scene.moveEnd x y t d) = true.
Proof.
  unfold survives.
  rewrite horizontal_speed, horizontal_distance, horizontal_elapsed.
  unfold gt, lt, MIN_MOVEMENT_THRESHOLD, MAX_SPEED_THRESHOLD.
  decide_order; try reflexivity.
Qed.

Lemma horizontal_calculateSpeed :
  calculateSpeed [Scene.moveStart x y t; Scene.moveEnd x y t d] = Math_round (Num (d * (54 / 1000))).
Proof.
  rewrite calculateSpeed_unfold. cbn [length Nat.ltb Nat.leb].
  unfold survivingSpeeds. cbn [consecutivePairs filter].
  rewrite horizontal_survives. cbn [map]. unfold speedOfPair. cbn [fst snd].
  rewrite horizontal_speed.
  unfold SPEED_SMOOTHING_WINDOW, slice_last, average, total, of_nat.
  cbn [length Nat.sub skipn fold_right add lift2 INR].
  rewrite div_Num by lra. do 2 apply f_equal. field.
Qed.

End HorizontalMove.

Lemma survives_inv (prev curr : Position.t) :
  survives (prev, curr) = true ->
  exists d e s : R,
    pixelDistance prev curr = Num d /\ (2 < d)%R
    /\ elapsedSeconds prev curr = Num e /\ (0 < e)%R
    /\ instantSpeed prev curr = Num s /\ (0 < s < 30)%R.
Proof.
  unfold survives. intros H.
  apply andb_prop in H as [H Hs]. apply andb_prop in H as [Hd He].
  unfold gt in Hd, He.
  apply lt_true_inv in Hd as (u1 & d & E1 & Ed & Hd).
  apply lt_true_inv in He as (u2 & e & E2 & Ee & He).
  apply lt_true_inv in Hs as (s & u3 & Es & E3 & Hs).
  unfold MIN_MOVEMENT_THRESHOLD in E1. unfold MAX_SPEED_THRESHOLD in E3.
  injection E1 as <-. injection E2 as <-. injection E3 as <-.
  exists d, e, s. repeat split; try assumption.
  unfold instantSpeed in Es. rewrite Ed, Ee in Es.
  unfold PIXEL_TO_METER, MS_TO_KMH in Es. cbn [mul lift2] in Es.
  rewrite div_Num in Es by lra. cbn [mul lift2] in Es.
  injection Es as <-.
  apply Rmult_lt_0_compat; [|lra].
  apply Rdiv_lt_0_compat; lra.
Qed.

Lemma survivingSpeeds_plausible (positions : list Position.t) :
  Forall plausible (survivingSpeeds positions).
Proof.
  unfold survivingSpeeds. apply Forall_map, Forall_forall.
  intros [prev curr] Hin. apply filter_In in Hin as [_ Hs].
  apply survives_inv in Hs as (d & e & s & _ & _ & _ & _ & Es & Hs).
  exists s. now split.
Qed.

Lemma Forall_slice_last {A : Type} (P : A -> Prop) (n : nat) (l : list A) :
  Forall P l -> Forall P (slice_last n l).
Proof.
  unfold slice_last. intros H.
  rewrite <- (firstn_skipn (length l - n) l) in H.
  now apply Forall_app in H.
Qed.

Lemma slice_last_length {A : Type} (n : nat) (l : list A) :
  length (slice_last n l) = Nat.min n (length l).
Proof. unfold slice_last. rewrite length_skipn. lia. Qed.

Lemma total_plausible (l : list number) :
  Forall plausible l ->
  exists s : R,
    total l = Num s
    /\ (0 <= s <= 30 * INR (length l))%R
    /\ (l <> [] -> 0 < s < 30 * INR (length l))%R.
Proof.
  induction 1 as [|a l (r & -> & Hr) _ (s & Es & Hs & _)].
  - exists 0%R. simpl. split; [reflexivity|]. split; [lra|].
    intros Hne. now elim Hne.
  - exists (r + s)%R.
    change (total (Num r :: l)) with (add (Num r) (total l)). rewrite Es.
    cbn [add lift2 length]. rewrite S_INR.
    split; [reflexivity|]. split; [lra|]. intros _. lra.
Qed.

Lemma average_plausible (l : list number) :
  Forall plausible l -> l <> [] -> plausible (average l).
Proof.
  intros Hl Hne. destruct (total_plausible l Hl) as (s & Es & _ & Hs).
  specialize (Hs Hne). unfold average, of_nat. rewrite Es.
  assert (Hn : (0 < INR (length l))%R).
  { apply lt_0_INR. destruct l; [easy | simpl; lia]. }
  rewrite div_Num by lra.
  exists (s / INR (length l))%R. split; [reflexivity|].
  assert (Hinv := Rinv_0_lt_compat _ Hn).
  assert (Hone : (INR (length l) * / INR (length l) = 1)%R)
    by (field; lra).
  unfold Rdiv. split; nra.
Qed.

Lemma Math_round_plausible (a : number) :
  plausible a ->
  exists z : Z, Math_round a = Num (IZR z) /\ (0 <= z <= 30)%Z.
Proof.
  intros (r & -> & Hr). exists (Int_part (r + / 2)). split; [reflexivity|].
  destruct (base_Int_part (r + / 2)) as [H1 H2].
  assert (Hlo : (IZR (-1) < IZR (Int_part (r + / 2)))%R) by lra.
  assert (Hhi : (IZR (Int_part (r + / 2)) < IZR 31)%R) by lra.
  apply lt_IZR in Hlo, Hhi. lia.
Qed.

Lemma calculateSpeed_bounded (positions : list Position.t) :
  exists z : Z, calculateSpeed positions = Num (IZR z) /\ (0 <= z <= 30)%Z.
Proof.
  rewrite calculateSpeed_unfold.
  destruct (length positions <? 2)%nat; [exists 0%Z; split; [reflexivity | lia]|].
  destruct (survivingSpeeds positions) as [|s l] eqn:E;
    [exists 0%Z; split; [reflexivity | lia]|].
  apply Math_round_plausible, average_plausible.
  - apply Forall_slice_last. rewrite <- E. apply survivingSpeeds_plausible.
  - intros Hnil. apply (f_equal (@length number)) in Hnil.
    rewrite slice_last_length in Hnil. unfold SPEED_SMOOTHING_WINDOW in Hnil.
    simpl in Hnil. lia.
Qed.

Lemma not_survives (prev curr : Position.t) :
  (forall d e s : R,
      pixelDistance prev curr = Num d -> elapsedSeconds prev curr = Num e ->
      instantSpeed prev curr = Num s ->
      ~ ((2 < d)%R /\ (0 < e)%R /\ (s < 30)%R)) ->
  survives (prev, curr) = false.
Proof.
  intros H. destruct (survives (prev, curr)) eqn:E; [|reflexivity].
  apply survives_inv in E as (d & e & s & Ed & Hd & Ee & He & Es & Hs).
  elim (H d e s Ed Ee Es). repeat split; lra.
Qed.


(** The upper end of the range is reached: 550 pixels in one second is
    29.7 km/h, which passes the cutoff and rounds to 30. *)
Lemma calculateSpeed_reaches_cutoff :
  calculateSpeed [Scene.moveStart 0 0 0; Scene.moveEnd 0 0 0 550] = Num 30.
Proof.
  rewrite horizontal_calculateSpeed by lra.
  apply (Math_round_Num _ 30). lra.
Qed.

(** ** The history buffer *)

Lemma pushPosition_room (h : list Position.t) (s : Position.t) :
  (length h < POSITION_HISTORY)%nat -> pushPosition h s = h ++ [s].
Proof.
  intros H. unfold pushPosition. rewrite length_app. cbn [length].
  destruct (Nat.ltb_spec POSITION_HISTORY (length h + 1)); [lia | reflexivity].
Qed.

Lemma pushPosition_full (h : list Position.t) (s : Position.t) :
  (POSITION_HISTORY <= length h)%nat -> pushPosition h s = tl h ++ [s].
Proof.
  intros H. unfold pushPosition. rewrite length_app. cbn [length].
  destruct (Nat.ltb_spec POSITION_HISTORY (length h + 1)); [|lia].
  destruct h as [|a h]; [|reflexivity].
  unfold POSITION_HISTORY in H. simpl in H. lia.
Qed.

Lemma pushPosition_length (h : list Position.t) (s : Position.t) :
  (length h <= POSITION_HISTORY)%nat ->
  (length (pushPosition h s) <= POSITION_HISTORY)%nat.
Proof.
  intros H. destruct (Nat.eq_dec (length h) POSITION_HISTORY) as [E|E].
  - rewrite pushPosition_full by lia. rewrite length_app. cbn [length].
    unfold POSITION_HISTORY in *. destruct h; simpl in *; lia.
  - rewrite pushPosition_room by lia. rewrite length_app. cbn [length]. lia.
Qed.

(** ** The cycle *)

Section CycleFacts.
Variable random : RandomSource.

Lemma existingObject_In (prev : list TrackedObject.t) (pred : Detection.t)
  (obj : TrackedObject.t) :
  existingObject prev pred = Some obj -> In obj prev.
Proof.
  unfold existingObject. destruct (centerOf (Detection.bbox pred)).
  intros H. now apply find_some in H.
Qed.

(** The fields of the record that [trackPrediction] returns. *)
Lemma trackPrediction_fields (prev : list TrackedObject.t)
  (currentTime : number) (pred : Detection.t) (calls : nat) :
  trackPrediction random prev currentTime pred calls
  = (TrackedObject.mk
       (fst (chooseId random (existingObject prev pred) pred calls))
       (Detection.class pred) (historyOf prev pred currentTime)
       (calculateSpeed (historyOf prev pred currentTime))
       (Detection.bbox pred) (Detection.score pred)
       (determineAction (historyOf prev pred currentTime)
          (calculateSpeed (historyOf prev pred currentTime)))
       currentTime,
     snd (chooseId random (existingObject prev pred) pred calls)).
Proof.
  unfold trackPrediction, historyOf, sampleOf.
  destruct (centerOf (Detection.bbox pred)) as [centerX centerY].
  now destruct (chooseId random (existingObject prev pred) pred calls).
Qed.

Lemma trackPrediction_lastUpdate prev currentTime pred calls :
  TrackedObject.lastUpdate
    (fst (trackPrediction random prev currentTime pred calls))
  = currentTime.
Proof. now rewrite trackPrediction_fields. Qed.

Lemma trackPrediction_bounded prev currentTime pred calls :
  Forall boundedHistory prev ->
  boundedHistory (fst (trackPrediction random prev currentTime pred calls)).
Proof.
  intros Hprev. rewrite trackPrediction_fields.
  unfold boundedHistory, historyOf. cbn [fst TrackedObject.positions].
  apply pushPosition_length.
  destruct (existingObject prev pred) as [obj|] eqn:E.
  - apply existingObject_In in E.
    rewrite Forall_forall in Hprev. now apply Hprev.
  - simpl. unfold POSITION_HISTORY. lia.
Qed.

Lemma isFresh_now (r : R) (obj : TrackedObject.t) :
  TrackedObject.lastUpdate obj = Num r -> isFresh (Num r) obj = true.
Proof.
  intros E. unfold isFresh, OBJECT_TIMEOUT. rewrite E. cbn [sub lift2].
  apply lt_Num. lra.
Qed.

Lemma mapPredictions_lastUpdate prev currentTime predictions :
  forall calls,
    Forall (fun obj => TrackedObject.lastUpdate obj = currentTime)
      (fst (mapPredictions random prev currentTime predictions calls)).
Proof.
  induction predictions as [|pred rest IH]; intros calls; [constructor|].
  cbn [mapPredictions].
  assert (H := trackPrediction_lastUpdate prev currentTime pred calls).
  destruct (trackPrediction random prev currentTime pred calls)
    as [obj calls1].
  specialize (IH calls1).
  destruct (mapPredictions random prev currentTime rest calls1).
  constructor; assumption.
Qed.

(** The staleness filter keeps every record the cycle has just made. *)
Lemma updateTrackedObjects_unfiltered st predictions now :
  trackedObjects (updateTrackedObjects random st predictions now)
  = fst (mapPredictions random (trackedObjects st) (Num (IZR now))
           predictions (randomCalls st)).
Proof.
  unfold updateTrackedObjects.
  assert (H := mapPredictions_lastUpdate (trackedObjects st)
                 (Num (IZR now)) predictions (randomCalls st)).
  destruct (mapPredictions random (trackedObjects st) (Num (IZR now))
              predictions (randomCalls st)) as [objs calls].
  cbn [trackedObjects fst] in *.
  induction H as [|obj objs Hobj _ IH]; [reflexivity|].
  cbn [filter]. now rewrite (isFresh_now _ _ Hobj), IH.
Qed.

Lemma mapPredictions_bounded prev currentTime predictions :
  Forall boundedHistory prev ->
  forall calls,
    Forall boundedHistory
      (fst (mapPredictions random prev currentTime predictions calls)).
Proof.
  intros Hprev.
  induction predictions as [|pred rest IH]; intros calls; [constructor|].
  cbn [mapPredictions].
  assert (H := trackPrediction_bounded prev currentTime pred calls Hprev).
  destruct (trackPrediction random prev currentTime pred calls)
    as [obj calls1].
  specialize (IH calls1).
  destruct (mapPredictions random prev currentTime rest calls1).
  constructor; assumption.
Qed.

Lemma updateTrackedObjects_bounded st predictions now :
  Forall boundedHistory (trackedObjects st) ->
  Forall boundedHistory
    (trackedObjects (updateTrackedObjects random st predictions now)).
Proof.
  intros H. rewrite updateTrackedObjects_unfiltered.
  now apply mapPredictions_bounded.
Qed.

Lemma runCycles_bounded cycles :
  forall st,
    Forall boundedHistory (trackedObjects st) ->
    Forall (Forall boundedHistory) (runCycles random st cycles).
Proof.
  induction cycles as [|[predictions now] rest IH]; intros st H;
    [constructor|].
  cbn [runCycles]. constructor.
  - now apply updateTrackedObjects_bounded.
  - apply IH. now apply updateTrackedObjects_bounded.
Qed.

End CycleFacts.

(** C4. After any number of detection cycles every published track has
    a history of at most 15 samples, from the empty engine and from any
    engine whose histories respect the bound; a sample appended to a
    full history evicts the oldest entry only and keeps the others in
    their order, and a sample appended to a shorter history evicts
    nothing. *)
Theorem history_bounded :
  (forall random cycles,
      Forall (Forall boundedHistory) (runCycles random initialEngine cycles))
  /\ (forall random st cycles,
        Forall boundedHistory (trackedObjects st) ->
        Forall (Forall boundedHistory) (runCycles random st cycles))
  /\ (forall oldest h sample,
        length (oldest :: h) = POSITION_HISTORY ->
        pushPosition (oldest :: h) sample = h ++ [sample])
  /\ (forall h sample,
        (length h < POSITION_HISTORY)%nat ->
        pushPosition h sample = h ++ [sample]).
Proof.
  repeat apply conj.
  - intros random cycles. apply runCycles_bounded. constructor.
  - intros random st cycles. apply runCycles_bounded.
  - intros oldest h sample H. rewrite pushPosition_full by lia. reflexivity.
  - exact pushPosition_room.
Qed.

Lemma history_bounded_witness :
  Forall (Forall boundedHistory)
    (runCycles Scene.fives (mkEngine [Scene.track7] 1)
       [([Scene.firstPerson], 33%Z)])
  /\ pushPosition (Scene.moveStart 0 0 0 :: repeat Scene.still 14)
       (Scene.moveEnd 0 0 0 100)
     = repeat Scene.still 14 ++ [Scene.moveEnd 0 0 0 100]
  /\ pushPosition [Scene.still] (Scene.moveEnd 0 0 0 100)
     = [Scene.still] ++ [Scene.moveEnd 0 0 0 100].
Proof.
  destruct history_bounded as (_ & Hrun & Hfull & Hroom).
  repeat apply conj.
  - apply Hrun. constructor; [|constructor].
    unfold boundedHistory, POSITION_HISTORY. simpl. lia.
  - apply Hfull. reflexivity.
  - apply Hroom. unfold POSITION_HISTORY. simpl. lia.
Defined.

(** ** Association *)

Lemma find_first {A : Type} (f : A -> bool) (l : list A) (a : A) :
  find f l = Some a
  <-> exists before after,
      l = before ++ a :: after /\ f a = true
      /\ forall b, In b before -> f b = false.
Proof.
  induction l as [|c l IH]; cbn [find].
  - split; [discriminate|]. intros (before & after & E & _).
    now destruct before.
  - destruct (f c) eqn:Ec; split.
    + intros [= ->]. exists [], l. repeat split; [assumption|]. intros b [].
    + intros ([|b before] & after & E & Ha & Hb).
      * now injection E as ->.
      * injection E as <- _. rewrite (Hb c) in Ec by now left. discriminate.
    + intros H. apply IH in H as (before & after & -> & Ha & Hb).
      exists (c :: before), after. repeat split; [assumption|].
      intros b [<-|Hin]; [assumption | now apply Hb].
    + intros ([|b before] & after & E & Ha & Hb).
      * injection E as <- _. congruence.
      * injection E as <- ->. apply IH. exists before, after.
        repeat split; [assumption|]. intros b' Hin. apply Hb. now right.
Qed.

Lemma near_spec (a b : number) :
  lt (Math_abs (sub a b)) (Num 50) = true
  <-> exists u v : R, a = Num u /\ b = Num v /\ (Rabs (u - v) < 50)%R.
Proof.
  destruct a as [|u], b as [|v]; cbn [sub lift2 Math_abs].
  1-3: split; [discriminate | intros (u' & v' & E1 & E2 & _); discriminate].
  rewrite lt_Num. split.
  - intros H. now exists u, v.
  - intros (u' & v' & [= <-] & [= <-] & H). exact H.
Qed.

Lemma sameObject_withinGate (pred : Detection.t) (obj : TrackedObject.t) :
  sameObject pred (fst (centerOf (Detection.bbox pred)))
    (snd (centerOf (Detection.bbox pred))) obj = true
  <-> withinGate pred obj.
Proof.
  unfold sameObject, withinGate.
  rewrite !andb_true_iff, String.eqb_eq, !near_spec.
  unfold centerOf. cbn [fst snd]. split.
  - intros ((Hc & ox & px & Eox & Epx & Hx) & oy & py & Eoy & Epy & Hy).
    split; [assumption|]. exists ox, oy, px, py.
    now rewrite Eox, Eoy, Epx, Epy.
  - intros (Hc & ox & oy & px & py & [= Eox Eoy] & [= Epx Epy] & Hx & Hy).
    split; [split; [assumption|] |].
    + now exists ox, px.
    + now exists oy, py.
Qed.

Lemma existingObject_find (prev : list TrackedObject.t) (pred : Detection.t) :
  existingObject prev pred
  = find (sameObject pred (fst (centerOf (Detection.bbox pred)))
            (snd (centerOf (Detection.bbox pred)))) prev.
Proof.
  unfold existingObject. now destruct (centerOf (Detection.bbox pred)).
Qed.

Lemma not_withinGate (pred : Detection.t) (obj : TrackedObject.t) :
  sameObject pred (fst (centerOf (Detection.bbox pred)))
    (snd (centerOf (Detection.bbox pred))) obj = false
  <-> ~ withinGate pred obj.
Proof.
  rewrite <- sameObject_withinGate. now destruct (sameObject _ _ _ obj).
Qed.

Lemma existingObject_first prev pred obj :
  existingObject prev pred = Some obj
  <-> exists before after,
      prev = before ++ obj :: after /\ withinGate pred obj
      /\ forall o, In o before -> ~ withinGate pred o.
Proof.
  rewrite existingObject_find, find_first. split.
  - intros (before & after & E & Ho & Hb). exists before, after.
    split; [assumption|]. split; [now apply sameObject_withinGate|].
    intros o Hin. now apply not_withinGate, Hb.
  - intros (before & after & E & Ho & Hb). exists before, after.
    split; [assumption|]. split; [now apply sameObject_withinGate|].
    intros o Hin. now apply not_withinGate, Hb.
Qed.

Lemma existingObject_none prev pred :
  existingObject prev pred = None
  <-> forall o, In o prev -> ~ withinGate pred o.
Proof.
  rewrite existingObject_find. split.
  - intros H o Hin. apply not_withinGate. now apply (find_none _ _ H).
  - intros H. induction prev as [|c prev IH]; [reflexivity|].
    cbn [find]. rewrite (proj2 (not_withinGate pred c)) by (apply H; now left).
    apply IH. intros o Hin. apply H. now right.
Qed.

Lemma withinGate_centers (pred : Detection.t) (obj : TrackedObject.t)
  (ox oy px py : R) :
  centerOf (TrackedObject.bbox obj) = (Num ox, Num oy) ->
  centerOf (Detection.bbox pred) = (Num px, Num py) ->
  withinGate pred obj
  <-> TrackedObject.class obj = Detection.class pred
      /\ (Rabs (ox - px) < 50)%R /\ (Rabs (oy - py) < 50)%R.
Proof.
  intros Eo Ep. unfold withinGate. rewrite Eo, Ep. split.
  - intros (Hc & ox' & oy' & px' & py' & [= <- <-] & [= <- <-] & Hx & Hy).
    now repeat split.
  - intros (Hc & Hx & Hy). split; [assumption|].
    now exists ox, oy, px, py.
Qed.

(** C6. A detection is associated with the previous track [obj] exactly
    when [obj] is the first track of the list, in list order, that has
    the class of the detection and whose bounding-box centre is less
    than 50 pixels from the centre of the detection on the x axis and
    on the y axis; it is associated with no track exactly when no
    track qualifies.  A person detection centred at (100,100) matches a
    person track centred at (130,120) and not one centred at (200,100);
    the gate is a rectangle: a track centred at (140,140) qualifies. *)
Theorem association_gate :
  (forall prev pred obj,
      existingObject prev pred = Some obj
      <-> exists before after,
          prev = before ++ obj :: after /\ withinGate pred obj
          /\ forall o, In o before -> ~ withinGate pred o)
  /\ (forall prev pred,
        existingObject prev pred = None
        <-> forall o, In o prev -> ~ withinGate pred o)
  /\ (forall pred near far corner,
        Detection.class pred = "person"%string ->
        TrackedObject.class near = "person"%string ->
        TrackedObject.class far = "person"%string ->
        TrackedObject.class corner = "person"%string ->
        centerOf (Detection.bbox pred) = (Num 100, Num 100) ->
        centerOf (TrackedObject.bbox near) = (Num 130, Num 120) ->
        centerOf (TrackedObject.bbox far) = (Num 200, Num 100) ->
        centerOf (TrackedObject.bbox corner) = (Num 140, Num 140) ->
        withinGate pred near /\ ~ withinGate pred far
        /\ withinGate pred corner
        /\ existingObject [far; near] pred = Some near
        /\ existingObject [far] pred = None).
Proof.
  split; [exact existingObject_first|]. split; [exact existingObject_none|].
  intros pred near far corner Cp Cn Cf Cc Ep En Ef Ec.
  assert (Hnear : withinGate pred near).
  { apply (withinGate_centers _ _ _ _ _ _ En Ep).
    split; [congruence|]. split; apply Rabs_def1; lra. }
  assert (Hfar : ~ withinGate pred far).
  { intros H. apply (withinGate_centers _ _ _ _ _ _ Ef Ep) in H.
    destruct H as (_ & H & _). apply Rabs_def2 in H. lra. }
  assert (Hcorner : withinGate pred corner).
  { apply (withinGate_centers _ _ _ _ _ _ Ec Ep).
    split; [congruence|]. split; apply Rabs_def1; lra. }
  split; [assumption|]. split; [assumption|]. split; [assumption|]. split.
  - apply existingObject_first. exists [far], []. split; [reflexivity|].
    split; [assumption|]. intros o [<-|[]]. assumption.
  - apply existingObject_none. intros o [<-|[]]. assumption.
Qed.

Lemma centerOf_box (u v w h : R) :
  centerOf [Num u; Num v; Num w; Num h] = (Num (u + w / 2), Num (v + h / 2)).
Proof.
  unfold centerOf, index. cbn [nth]. rewrite !div_Num by lra. reflexivity.
Qed.

Lemma centerOf_scene_box (u v : R) :
  centerOf (Scene.box u v) = (Num (u + 10), Num (v + 10)).
Proof.
  unfold Scene.box. rewrite centerOf_box.
  apply f_equal2; apply f_equal; lra.
Qed.

Lemma association_gate_witness :
  existingObject [Scene.farTrack; Scene.nearTrack] Scene.centredPerson
  = Some Scene.nearTrack.
Proof.
  refine (proj1 (proj2 (proj2 (proj2
    (proj2 (proj2 association_gate)
       Scene.centredPerson Scene.nearTrack Scene.farTrack Scene.cornerTrack
       eq_refl eq_refl eq_refl eq_refl _ _ _ _))))).
  all: cbn [Scene.centredPerson Scene.nearTrack Scene.farTrack
              Scene.cornerTrack Detection.bbox TrackedObject.bbox];
    rewrite centerOf_scene_box; apply f_equal2; apply f_equal; lra.
Defined.

(** ** Identifiers *)

Section Identifiers.
Variable random : RandomSource.

Lemma chooseId_reuse (obj : TrackedObject.t) (pred : Detection.t)
  (calls : nat) :
  TrackedObject.id obj <> EmptyString ->
  chooseId random (Some obj) pred calls = (TrackedObject.id obj, calls).
Proof.
  unfold chooseId. now destruct (TrackedObject.id obj).
Qed.

Lemma chooseId_cases (existing : option TrackedObject.t)
  (pred : Detection.t) (calls : nat) :
  (exists obj,
      existing = Some obj
      /\ chooseId random existing pred calls = (TrackedObject.id obj, calls))
  \/ chooseId random existing pred calls
     = (freshId random pred calls, S calls).
Proof.
  unfold chooseId, freshId. destruct existing as [obj|]; [|now right].
  destruct (TrackedObject.id obj) eqn:E; [now right|].
  left. exists obj. now rewrite E.
Qed.

Lemma mapPredictions_cons prev currentTime pred rest calls :
  mapPredictions random prev currentTime (pred :: rest) calls
  = (fst (trackPrediction random prev currentTime pred calls)
     :: fst (mapPredictions random prev currentTime rest
               (snd (trackPrediction random prev currentTime pred calls))),
     snd (mapPredictions random prev currentTime rest
            (snd (trackPrediction random prev currentTime pred calls)))).
Proof.
  cbn [mapPredictions].
  destruct (trackPrediction random prev currentTime pred calls).
  cbn [fst snd].
  now destruct (mapPredictions random prev currentTime rest n).
Qed.

Lemma updateTrackedObjects_calls st predictions now :
  randomCalls (updateTrackedObjects random st predictions now)
  = snd (mapPredictions random (trackedObjects st) (Num (IZR now))
           predictions (randomCalls st)).
Proof.
  unfold updateTrackedObjects.
  now destruct (mapPredictions random (trackedObjects st) (Num (IZR now))
                  predictions (randomCalls st)).
Qed.

(** Two detections that select the same previous track both take its
    identifier and each extends a copy of its history; [Math.random]
    is not called. *)
Lemma double_match st d1 d2 now obj :
  existingObject (trackedObjects st) d1 = Some obj ->
  existingObject (trackedObjects st) d2 = Some obj ->
  TrackedObject.id obj <> EmptyString ->
  ids (trackedObjects (updateTrackedObjects random st [d1; d2] now))
  = [TrackedObject.id obj; TrackedObject.id obj]
  /\ map TrackedObject.positions
       (trackedObjects (updateTrackedObjects random st [d1; d2] now))
     = [pushPosition (TrackedObject.positions obj)
          (sampleOf d1 (Num (IZR now)));
        pushPosition (TrackedObject.positions obj)
          (sampleOf d2 (Num (IZR now)))]
  /\ randomCalls (updateTrackedObjects random st [d1; d2] now)
     = randomCalls st.
Proof.
  intros E1 E2 Hid.
  rewrite updateTrackedObjects_unfiltered, updateTrackedObjects_calls.
  rewrite !mapPredictions_cons, !trackPrediction_fields. cbn [fst snd].
  unfold historyOf. rewrite E1. rewrite (chooseId_reuse _ _ _ Hid).
  cbn [fst snd]. rewrite E2, (chooseId_reuse _ _ _ Hid).
  cbn [mapPredictions fst snd ids map TrackedObject.id TrackedObject.positions].
  repeat split.
Qed.

Lemma freshId_nonempty pred k : freshId random pred k <> EmptyString.
Proof.
  unfold freshId. now destruct (Detection.class pred).
Qed.

Lemma chooseId_nonempty existing pred calls :
  fst (chooseId random existing pred calls) <> EmptyString.
Proof.
  destruct (chooseId_cases existing pred calls)
    as [(obj & -> & Hc) | ->]; [|apply freshId_nonempty].
  unfold chooseId in *. destruct (TrackedObject.id obj) eqn:E.
  - injection Hc as Hc _. apply freshId_nonempty in Hc. contradiction.
  - discriminate.
Qed.

(** Every record that a cycle publishes carries a non-empty
    identifier. *)
Lemma updateTrackedObjects_named st predictions now :
  Forall (fun obj => TrackedObject.id obj <> EmptyString)
    (trackedObjects (updateTrackedObjects random st predictions now)).
Proof.
  rewrite updateTrackedObjects_unfiltered.
  generalize (randomCalls st).
  induction predictions as [|pred rest IH]; intros calls; [constructor|].
  rewrite mapPredictions_cons, trackPrediction_fields. cbn [fst snd].
  constructor; [apply chooseId_nonempty | apply IH].
Qed.

End Identifiers.

Lemma withinGate_scene (u v u' v' : R) (pred : Detection.t)
  (obj : TrackedObject.t) :
  Detection.bbox pred = Scene.box u v ->
  TrackedObject.bbox obj = Scene.box u' v' ->
  TrackedObject.class obj = Detection.class pred ->
  (Rabs (u' - u) < 50)%R -> (Rabs (v' - v) < 50)%R ->
  withinGate pred obj.
Proof.
  intros Ep Eo Hc Hx Hy.
  apply (withinGate_centers pred obj (u' + 10) (v' + 10) (u + 10) (v + 10)).
  - rewrite Eo. apply centerOf_scene_box.
  - rewrite Ep. apply centerOf_scene_box.
  - split; [assumption|].
    split; [replace (u' + 10 - (u + 10))%R with (u' - u)%R by ring
           | replace (v' + 10 - (v + 10))%R with (v' - v)%R by ring];
      assumption.
Qed.

Lemma crowded_first :
  existingObject [Scene.track7] Scene.firstPerson = Some Scene.track7.
Proof.
  apply existingObject_first. exists [], []. split; [reflexivity|]. split.
  - apply (withinGate_scene 95 90 90 90); try reflexivity;
      apply Rabs_def1; lra.
  - intros o [].
Qed.

Lemma crowded_second :
  existingObject [Scene.track7] Scene.secondPerson = Some Scene.track7.
Proof.
  apply existingObject_first. exists [], []. split; [reflexivity|]. split.
  - apply (withinGate_scene 85 90 90 90); try reflexivity;
      apply Rabs_def1; lra.
  - intros o [].
Qed.

(** C7, as the code has it.  When two detections of one cycle select
    the same previous track, both are associated with it: both emitted
    records carry its identifier, each extends a copy of its history
    with its own sample, and no new identifier is drawn.  The
    identifier of the track is taken to be non-empty, as is that of
    every record that a cycle publishes. *)
Theorem double_match_shares_id :
  (forall random st d1 d2 now obj,
      existingObject (trackedObjects st) d1 = Some obj ->
      existingObject (trackedObjects st) d2 = Some obj ->
      TrackedObject.id obj <> EmptyString ->
      ids (trackedObjects (updateTrackedObjects random st [d1; d2] now))
      = [TrackedObject.id obj; TrackedObject.id obj]
      /\ map TrackedObject.positions
           (trackedObjects (updateTrackedObjects random st [d1; d2] now))
         = [pushPosition (TrackedObject.positions obj)
              (sampleOf d1 (Num (IZR now)));
            pushPosition (TrackedObject.positions obj)
              (sampleOf d2 (Num (IZR now)))]
      /\ randomCalls (updateTrackedObjects random st [d1; d2] now)
         = randomCalls st)
  /\ (forall random st predictions now,
        Forall (fun obj => TrackedObject.id obj <> EmptyString)
          (trackedObjects (updateTrackedObjects random st predictions now))).
Proof.
  split; [exact double_match | exact updateTrackedObjects_named].
Qed.

Lemma double_match_shares_id_witness :
  ids (trackedObjects
         (updateTrackedObjects Scene.fives (mkEngine [Scene.track7] 1)
            [Scene.firstPerson; Scene.secondPerson] 33))
  = ["person-7"%string; "person-7"%string].
Proof.
  apply (proj1 double_match_shares_id Scene.fives
           (mkEngine [Scene.track7] 1)
           Scene.firstPerson Scene.secondPerson 33%Z Scene.track7).
  - apply crowded_first.
  - apply crowded_second.
  - discriminate.
Defined.

(** C7, counterexample to the claim as stated: the second of two
    detections within the gate of one track does not become a new track;
    the two emitted records carry the same identifier and [Math.random]
    is not called. *)
Lemma second_detection_not_new :
  existingObject [Scene.track7] Scene.firstPerson = Some Scene.track7
  /\ existingObject [Scene.track7] Scene.secondPerson = Some Scene.track7
  /\ ids (trackedObjects
            (updateTrackedObjects Scene.fives (mkEngine [Scene.track7] 1)
               [Scene.firstPerson; Scene.secondPerson] 33))
     = ["person-7"%string; "person-7"%string]
  /\ ~ NoDup
        (ids (trackedObjects
                (updateTrackedObjects Scene.fives (mkEngine [Scene.track7] 1)
                   [Scene.firstPerson; Scene.secondPerson] 33)))
  /\ randomCalls
       (updateTrackedObjects Scene.fives (mkEngine [Scene.track7] 1)
          [Scene.firstPerson; Scene.secondPerson] 33)
     = 1%nat.
Proof.
  assert (H := double_match Scene.fives (mkEngine [Scene.track7] 1)
                 Scene.firstPerson Scene.secondPerson 33 Scene.track7
                 crowded_first crowded_second).
  destruct H as (Hids & _ & Hcalls); [discriminate|].
  split; [apply crowded_first|]. split; [apply crowded_second|].
  split; [exact Hids|]. split; [|exact Hcalls].
  rewrite Hids. intros Hnd.
  inversion Hnd as [|? ? Hin _]. apply Hin. now left.
Qed.

(** ** Vanished tracks *)

Section Vanishing.
Variable random : RandomSource.

Lemma chooseId_calls existing pred calls :
  (calls <= snd (chooseId random existing pred calls))%nat.
Proof.
  destruct (chooseId_cases random existing pred calls)
    as [(obj & _ & ->) | ->]; cbn [snd]; lia.
Qed.

Lemma mapPredictions_calls prev currentTime predictions :
  forall calls,
    (calls <= snd (mapPredictions random prev currentTime predictions calls))%nat.
Proof.
  induction predictions as [|pred rest IH]; intros calls; [simpl; lia|].
  rewrite mapPredictions_cons, trackPrediction_fields. cbn [snd].
  etransitivity; [|apply IH]. apply chooseId_calls.
Qed.

(** Where the identifiers of a cycle come from: a matched previous
    track, or a call of [Math.random] made during the cycle. *)
Lemma mapPredictions_ids prev currentTime predictions (i : string) :
  forall calls,
    In i (ids (fst (mapPredictions random prev currentTime predictions calls))) ->
    (exists pred obj,
        In pred predictions /\ existingObject prev pred = Some obj
        /\ TrackedObject.id obj = i)
    \/ (exists pred k,
          In pred predictions /\ (calls <= k)%nat
          /\ freshId random pred k = i).
Proof.
  induction predictions as [|pred rest IH]; intros calls; [intros []|].
  rewrite mapPredictions_cons, trackPrediction_fields.
  cbn [fst snd ids map TrackedObject.id]. intros [Hhead | Htail].
  - destruct (chooseId_cases random (existingObject prev pred) pred calls)
      as [(obj & E & Hc) | Hc]; rewrite Hc in Hhead; cbn [fst] in Hhead.
    + left. exists pred, obj. repeat split; [now left | assumption..].
    + right. exists pred, calls. repeat split; [now left | lia | assumption].
  - apply IH in Htail as [(p & obj & Hin & E & Hi) | (p & k & Hin & Hk & Hi)].
    + left. exists p, obj. repeat split; [now right | assumption..].
    + right. exists p, k. repeat split; [now right | | assumption].
      etransitivity; [|exact Hk]. apply chooseId_calls.
Qed.

Lemma updateTrackedObjects_ids st predictions now (i : string) :
  In i (ids (trackedObjects (updateTrackedObjects random st predictions now))) ->
  (exists pred obj,
      In pred predictions
      /\ existingObject (trackedObjects st) pred = Some obj
      /\ TrackedObject.id obj = i)
  \/ (exists pred k,
        In pred predictions /\ (randomCalls st <= k)%nat
        /\ freshId random pred k = i).
Proof.
  rewrite updateTrackedObjects_unfiltered. apply mapPredictions_ids.
Qed.

Lemma updateTrackedObjects_calls_le st predictions now :
  (randomCalls st
   <= randomCalls (updateTrackedObjects random st predictions now))%nat.
Proof.
  rewrite updateTrackedObjects_calls. apply mapPredictions_calls.
Qed.

(** An identifier that no track carries and that [Math.random] does
    not produce again stays absent. *)
Lemma runCycles_absent (i : string) cycles :
  forall st,
    ~ In i (ids (trackedObjects st)) ->
    (forall pred k,
        In pred (concat (map fst cycles)) -> (randomCalls st <= k)%nat ->
        freshId random pred k <> i) ->
    Forall (fun objs => ~ In i (ids objs)) (runCycles random st cycles).
Proof.
  induction cycles as [|[predictions now] rest IH]; intros st Habs Hfresh;
    [constructor|].
  cbn [runCycles map fst concat] in *.
  assert (Hnext : ~ In i (ids (trackedObjects
                    (updateTrackedObjects random st predictions now)))).
  { intros Hin.
    apply updateTrackedObjects_ids
      in Hin as [(p & obj & Hin & E & Hi) | (p & k & Hin & Hk & Hi)].
    - apply Habs. rewrite <- Hi. apply in_map. now apply existingObject_In in E.
    - apply (Hfresh p k); [apply in_or_app; now left | assumption..]. }
  constructor; [assumption|]. apply IH; [assumption|].
  intros pred k Hin Hk. apply Hfresh; [apply in_or_app; now right|].
  etransitivity; [apply updateTrackedObjects_calls_le | exact Hk].
Qed.

Lemma unmatched_absent st predictions now (i : string) :
  (forall pred obj,
      In pred predictions ->
      existingObject (trackedObjects st) pred = Some obj ->
      TrackedObject.id obj <> i) ->
  (forall pred k,
      In pred predictions -> (randomCalls st <= k)%nat ->
      freshId random pred k <> i) ->
  ~ In i (ids (trackedObjects (updateTrackedObjects random st predictions now))).
Proof.
  intros Hun Hfresh Hin.
  apply updateTrackedObjects_ids
    in Hin as [(p & obj & Hin & E & Hi) | (p & k & Hin & Hk & Hi)].
  - now apply (Hun p obj).
  - now apply (Hfresh p k).
Qed.

End Vanishing.

Section Provenance.
Variable random : RandomSource.

(** The identifiers of a cycle, with the calls that drew the new ones:
    each comes from a matched previous track or from a call of
    [Math.random] made during this very cycle. *)
Lemma mapPredictions_drawn prev currentTime predictions (i : string) :
  forall calls,
    In i (ids (fst (mapPredictions random prev currentTime predictions calls))) ->
    (exists pred obj,
        In pred predictions /\ existingObject prev pred = Some obj
        /\ TrackedObject.id obj = i)
    \/ (exists pred k,
          In pred predictions
          /\ (calls <= k
              < snd (mapPredictions random prev currentTime predictions calls))%nat
          /\ freshId random pred k = i).
Proof.
  induction predictions as [|pred rest IH]; intros calls; [intros []|].
  rewrite mapPredictions_cons, trackPrediction_fields.
  cbn [fst snd ids map TrackedObject.id]. intros [Hhead | Htail].
  - destruct (chooseId_cases random (existingObject prev pred) pred calls)
      as [(obj & E & Hc) | Hc]; rewrite Hc in Hhead |- *;
      cbn [fst snd] in Hhead |- *.
    + left. exists pred, obj. repeat split; [now left | assumption..].
    + right. exists pred, calls. split; [now left|]. split; [|assumption].
      assert (H := mapPredictions_calls random prev currentTime rest (S calls)).
      lia.
  - apply IH in Htail as [(p & obj & Hin & E & Hi) | (p & k & Hin & Hk & Hi)].
    + left. exists p, obj. repeat split; [now right | assumption..].
    + right. exists p, k. split; [now right|]. split; [|assumption].
      assert (H := chooseId_calls random (existingObject prev pred) pred calls).
      lia.
Qed.

Lemma matched_id_kept prev currentTime predictions pred obj :
  In pred predictions ->
  existingObject prev pred = Some obj ->
  TrackedObject.id obj <> EmptyString ->
  forall calls,
    In (TrackedObject.id obj)
      (ids (fst (mapPredictions random prev currentTime predictions calls))).
Proof.
  intros Hin E Hid.
  induction predictions as [|p rest IH]; intros calls; [destruct Hin|].
  rewrite mapPredictions_cons. cbn [fst ids map].
  destruct Hin as [-> | Hin].
  - left. rewrite trackPrediction_fields. cbn [fst TrackedObject.id].
    now rewrite E, chooseId_reuse.
  - right. now apply IH.
Qed.

(** A cycle with one detection and no previous track. *)
Lemma new_track_cycle (pred : Detection.t) (now : Z) (calls : nat) :
  updateTrackedObjects random (mkEngine [] calls) [pred] now
  = mkEngine [strayRecord random pred (Num (IZR now)) calls] (S calls).
Proof.
  assert (E : trackPrediction random [] (Num (IZR now)) pred calls
              = (strayRecord random pred (Num (IZR now)) calls, S calls)).
  { rewrite trackPrediction_fields. unfold historyOf.
    change (existingObject [] pred) with (@None TrackedObject.t).
    reflexivity. }
  unfold updateTrackedObjects. cbn [trackedObjects randomCalls mapPredictions].
  rewrite E. cbn [filter]. now rewrite isFresh_now.
Qed.

Lemma id_provenance st predictions now (i : string) :
  In i (ids (trackedObjects (updateTrackedObjects random st predictions now))) ->
  (exists pred obj,
      In pred predictions
      /\ existingObject (trackedObjects st) pred = Some obj
      /\ TrackedObject.id obj = i)
  \/ (exists pred k,
        In pred predictions
        /\ (randomCalls st <= k
            < randomCalls (updateTrackedObjects random st predictions now))%nat
        /\ freshId random pred k = i).
Proof.
  rewrite updateTrackedObjects_unfiltered, updateTrackedObjects_calls.
  apply mapPredictions_drawn.
Qed.

Lemma id_absent_unless_redrawn st predictions now later (i : string) :
  (forall pred obj,
      In pred predictions ->
      existingObject (trackedObjects st) pred = Some obj ->
      TrackedObject.id obj <> i) ->
  (forall pred k,
      In pred (predictions ++ concat (map fst later)) ->
      (randomCalls st <= k)%nat ->
      freshId random pred k <> i) ->
  ~ In i (ids (trackedObjects
                 (updateTrackedObjects random st predictions now)))
  /\ Forall (fun objs => ~ In i (ids objs))
       (runCycles random
          (updateTrackedObjects random st predictions now) later).
Proof.
  intros Hun Hfresh.
  assert (Habs : ~ In i (ids (trackedObjects
                   (updateTrackedObjects random st predictions now)))).
  { apply unmatched_absent; [assumption|].
    intros pred k Hin. apply Hfresh, in_or_app. now left. }
  split; [assumption|].
  apply runCycles_absent; [assumption|].
  intros pred k Hin Hk. apply Hfresh; [apply in_or_app; now right|].
  etransitivity; [apply updateTrackedObjects_calls_le | exact Hk].
Qed.

End Provenance.

(** C5, as the code has it.  An identifier [i] appears in the output of
    a cycle only on a record whose detection is associated with a
    previous record carrying [i], or on a new track for which
    [Math.random], called during that cycle, produced [i]; new
    identifiers are not compared with earlier ones.  Hence an identifier
    that no detection of a cycle is associated with is absent from the
    output of that cycle and of the later cycles as long as no call of
    [Math.random] reproduces it; an identifier one of whose records is
    matched stays in the output; and a cycle without detections
    publishes no track, whatever the previous set. *)
Theorem unmatched_id_absent_unless_redrawn :
  (forall random st predictions now i,
      In i (ids (trackedObjects
                   (updateTrackedObjects random st predictions now))) ->
      (exists pred obj,
          In pred predictions
          /\ existingObject (trackedObjects st) pred = Some obj
          /\ TrackedObject.id obj = i)
      \/ (exists pred k,
            In pred predictions
            /\ (randomCalls st <= k
                < randomCalls
                    (updateTrackedObjects random st predictions now))%nat
            /\ freshId random pred k = i))
  /\ (forall random st predictions now later i,
        (forall pred obj,
            In pred predictions ->
            existingObject (trackedObjects st) pred = Some obj ->
            TrackedObject.id obj <> i) ->
        (forall pred k,
            In pred (predictions ++ concat (map fst later)) ->
            (randomCalls st <= k)%nat ->
            freshId random pred k <> i) ->
        ~ In i (ids (trackedObjects
                       (updateTrackedObjects random st predictions now)))
        /\ Forall (fun objs => ~ In i (ids objs))
             (runCycles random
                (updateTrackedObjects random st predictions now) later))
  /\ (forall random st predictions now pred obj,
        In pred predictions ->
        existingObject (trackedObjects st) pred = Some obj ->
        TrackedObject.id obj <> EmptyString ->
        In (TrackedObject.id obj)
          (ids (trackedObjects
                  (updateTrackedObjects random st predictions now))))
  /\ (forall random st now,
        trackedObjects (updateTrackedObjects random st [] now) = []).
Proof.
  split; [exact id_provenance|]. split; [exact id_absent_unless_redrawn|].
  split; [|reflexivity].
  intros random st predictions now pred obj Hin E Hid.
  rewrite updateTrackedObjects_unfiltered.
  now apply (matched_id_kept random _ _ predictions pred obj).
Qed.

Lemma unmatched_id_absent_unless_redrawn_witness :
  (~ In "cat-9"%string
       (ids (trackedObjects
               (updateTrackedObjects Scene.fives (mkEngine [Scene.cat9] 1)
                  [Scene.firstPerson] 33)))
   /\ Forall (fun objs => ~ In "cat-9"%string (ids objs))
        (runCycles Scene.fives
           (updateTrackedObjects Scene.fives (mkEngine [Scene.cat9] 1)
              [Scene.firstPerson] 33)
           [([Scene.catAgain], 66%Z)]))
  /\ In "person-7"%string
       (ids (trackedObjects
               (updateTrackedObjects Scene.fives (mkEngine [Scene.track7] 1)
                  [Scene.secondPerson] 33))).
Proof.
  destruct unmatched_id_absent_unless_redrawn as (_ & Habsent & Hkept & _).
  split.
  - apply (Habsent Scene.fives (mkEngine [Scene.cat9] 1) [Scene.firstPerson]
             33%Z [([Scene.catAgain], 66%Z)]).
    + intros pred obj [<-|[]] E Hid.
      assert (Hin := existingObject_In _ _ _ E).
      apply existingObject_first in E as (_ & _ & _ & (Hclass & _) & _).
      destruct Hin as [<-|[]]. discriminate Hclass.
    + intros pred k [<-|[<-|[]]] _; discriminate.
  - apply (Hkept Scene.fives (mkEngine [Scene.track7] 1) [Scene.secondPerson]
             33%Z Scene.secondPerson Scene.track7).
    + now left.
    + apply crowded_second.
    + discriminate.
Defined.

(** C5, counterexample to the claim as stated: with a random source
    that returns the same value again, the identifier of a track that
    vanished in a cycle without detections is given to a new track two
    cycles later. *)
Lemma vanished_id_drawn_again :
  map ids
    (runCycles Scene.fives initialEngine
       [([Scene.firstPerson], 0%Z); ([], 33%Z); ([Scene.firstPerson], 66%Z)])
  = [["person-5"%string]; []; ["person-5"%string]].
Proof.
  unfold initialEngine. cbn [runCycles]. rewrite new_track_cycle.
  change (updateTrackedObjects Scene.fives
            (mkEngine [strayRecord Scene.fives Scene.firstPerson (Num 0) 0] 1)
            [] 33)
    with (mkEngine [] 1).
  rewrite new_track_cycle. reflexivity.
Qed.

(** ** Independence from the identifiers *)

Lemma sameObject_eraseId pred centerX centerY obj :
  sameObject pred centerX centerY (eraseId obj)
  = sameObject pred centerX centerY obj.
Proof. reflexivity. Qed.

Lemma find_erased pred centerX centerY (l1 : list TrackedObject.t) :
  forall l2,
    map eraseId l1 = map eraseId l2 ->
    option_map eraseId (find (sameObject pred centerX centerY) l1)
    = option_map eraseId (find (sameObject pred centerX centerY) l2).
Proof.
  induction l1 as [|a l1 IH]; intros [|b l2] E; try discriminate;
    [reflexivity|].
  assert (Eab : eraseId a = eraseId b)
    by exact (f_equal (hd (eraseId a)) E).
  assert (El : map eraseId l1 = map eraseId l2)
    by exact (f_equal (@tl _) E).
  cbn [find].
  rewrite <- (sameObject_eraseId _ _ _ a), <- (sameObject_eraseId _ _ _ b).
  rewrite Eab. destruct (sameObject pred centerX centerY (eraseId b)).
  - cbn [option_map]. now rewrite Eab.
  - now apply IH.
Qed.

Lemma existingObject_erased prev1 prev2 pred :
  map eraseId prev1 = map eraseId prev2 ->
  option_map eraseId (existingObject prev1 pred)
  = option_map eraseId (existingObject prev2 pred).
Proof.
  intros E. rewrite !existingObject_find. now apply find_erased.
Qed.

Lemma historyOf_erased prev1 prev2 pred currentTime :
  map eraseId prev1 = map eraseId prev2 ->
  historyOf prev1 pred currentTime = historyOf prev2 pred currentTime.
Proof.
  intros E. apply (existingObject_erased _ _ pred) in E.
  unfold historyOf.
  destruct (existingObject prev1 pred) as [o1|],
           (existingObject prev2 pred) as [o2|];
    try discriminate; [|reflexivity].
  cbn [option_map] in E.
  assert (Ep : TrackedObject.positions (eraseId o1)
               = TrackedObject.positions (eraseId o2))
    by (now injection E).
  cbn in Ep. now rewrite Ep.
Qed.

Section TwoRuns.
Variables random1 random2 : RandomSource.

Lemma trackPrediction_erased prev1 prev2 currentTime pred calls1 calls2 :
  map eraseId prev1 = map eraseId prev2 ->
  eraseId (fst (trackPrediction random1 prev1 currentTime pred calls1))
  = eraseId (fst (trackPrediction random2 prev2 currentTime pred calls2)).
Proof.
  intros E. rewrite !trackPrediction_fields. cbn [fst]. unfold eraseId.
  cbn. now rewrite (historyOf_erased _ _ pred currentTime E).
Qed.

Lemma mapPredictions_erased prev1 prev2 currentTime predictions :
  map eraseId prev1 = map eraseId prev2 ->
  forall calls1 calls2,
    map eraseId
      (fst (mapPredictions random1 prev1 currentTime predictions calls1))
    = map eraseId
        (fst (mapPredictions random2 prev2 currentTime predictions calls2)).
Proof.
  intros E.
  induction predictions as [|pred rest IH]; intros calls1 calls2;
    [reflexivity|].
  rewrite !mapPredictions_cons. cbn [fst map].
  rewrite (trackPrediction_erased _ _ currentTime pred calls1 calls2 E).
  apply f_equal, IH.
Qed.

Lemma updateTrackedObjects_erased st1 st2 predictions now :
  map eraseId (trackedObjects st1) = map eraseId (trackedObjects st2) ->
  map eraseId
    (trackedObjects (updateTrackedObjects random1 st1 predictions now))
  = map eraseId
      (trackedObjects (updateTrackedObjects random2 st2 predictions now)).
Proof.
  intros E. rewrite !updateTrackedObjects_unfiltered.
  now apply mapPredictions_erased.
Qed.

Lemma runCycles_erased cycles :
  forall st1 st2,
    map eraseId (trackedObjects st1) = map eraseId (trackedObjects st2) ->
    map (map eraseId) (runCycles random1 st1 cycles)
    = map (map eraseId) (runCycles random2 st2 cycles).
Proof.
  induction cycles as [|[predictions now] rest IH]; intros st1 st2 E;
    [reflexivity|].
  cbn [runCycles map].
  assert (E' := updateTrackedObjects_erased st1 st2 predictions now E).
  rewrite E'. apply f_equal, IH, E'.
Qed.

End TwoRuns.

Lemma speedAndAction_erased (objs : list TrackedObject.t) :
  map speedAndAction objs = map speedAndAction (map eraseId objs).
Proof. rewrite map_map. reflexivity. Qed.

(** C9.  Two runs of the same sequence of detection lists and
    timestamps from the empty engine, whatever values [Math.random]
    returns in each, publish in every cycle records that differ in
    their identifiers only; in particular the sequences of speeds and
    actions are the same. *)
Theorem replay_deterministic :
  forall (random1 random2 : RandomSource)
         (cycles : list (list Detection.t * Z)),
    map (map speedAndAction) (runCycles random1 initialEngine cycles)
    = map (map speedAndAction) (runCycles random2 initialEngine cycles)
    /\ map (map eraseId) (runCycles random1 initialEngine cycles)
       = map (map eraseId) (runCycles random2 initialEngine cycles).
Proof.
  intros random1 random2 cycles.
  assert (E : map (map eraseId) (runCycles random1 initialEngine cycles)
              = map (map eraseId) (runCycles random2 initialEngine cycles))
    by now apply runCycles_erased.
  split; [|exact E].
  rewrite (map_ext _ _ speedAndAction_erased).
  rewrite (map_ext _ _ speedAndAction_erased
             (runCycles random2 initialEngine cycles)).
  rewrite <- !(map_map (map eraseId) (map speedAndAction)).
  now rewrite E.
Qed.

(** ** Malformed detections *)

Lemma add_NaN_r (a : number) : add a NaN = NaN.
Proof. now destruct a. Qed.

Lemma sub_NaN_r (a : number) : sub a NaN = NaN.
Proof. now destruct a. Qed.

Lemma malformed_center (pred : Detection.t) :
  malformed pred ->
  fst (centerOf (Detection.bbox pred)) = NaN
  \/ snd (centerOf (Detection.bbox pred)) = NaN.
Proof.
  intros (i & Hi & E). unfold centerOf. cbn [fst snd].
  destruct i as [|[|[|[|i]]]]; [| | | |lia].
  - left. now rewrite E.
  - right. now rewrite E.
  - left. rewrite E. apply add_NaN_r.
  - right. rewrite E. apply add_NaN_r.
Qed.

Lemma sameObject_NaN pred centerX centerY obj :
  centerX = NaN \/ centerY = NaN ->
  sameObject pred centerX centerY obj = false.
Proof.
  unfold sameObject. intros [-> | ->]; rewrite sub_NaN_r; cbn [Math_abs lt].
  - now rewrite andb_false_r.
  - now rewrite andb_false_r.
Qed.

Lemma malformed_unmatched prev pred :
  malformed pred -> existingObject prev pred = None.
Proof.
  intros H. apply malformed_center in H. rewrite existingObject_find.
  induction prev as [|obj prev IH]; [reflexivity|].
  cbn [find]. now rewrite sameObject_NaN.
Qed.

Section Malformed.
Variable random : RandomSource.

Lemma malformed_record prev currentTime pred calls :
  malformed pred ->
  trackPrediction random prev currentTime pred calls
  = (strayRecord random pred currentTime calls, S calls).
Proof.
  intros H. rewrite trackPrediction_fields. unfold historyOf.
  rewrite (malformed_unmatched prev pred H). reflexivity.
Qed.

Lemma mapPredictions_app prev currentTime before after :
  forall calls,
    mapPredictions random prev currentTime (before ++ after) calls
    = (fst (mapPredictions random prev currentTime before calls)
       ++ fst (mapPredictions random prev currentTime after
                 (snd (mapPredictions random prev currentTime before calls))),
       snd (mapPredictions random prev currentTime after
              (snd (mapPredictions random prev currentTime before calls)))).
Proof.
  induction before as [|pred before IH]; intros calls.
  - cbn [app mapPredictions fst snd]. now rewrite <- surjective_pairing.
  - cbn [app]. rewrite !mapPredictions_cons, IH. reflexivity.
Qed.

Lemma mapPredictions_length prev currentTime predictions :
  forall calls,
    length (fst (mapPredictions random prev currentTime predictions calls))
    = length predictions.
Proof.
  induction predictions as [|pred rest IH]; intros calls; [reflexivity|].
  rewrite mapPredictions_cons. cbn [fst length]. now rewrite IH.
Qed.

(** The records of the same detections when one more call of
    [Math.random] has been made before them. *)
Lemma mapPredictions_shift prev currentTime predictions :
  forall calls,
    Forall2
      (fun pred pair =>
         sameButDrawnLater random prev pred (fst pair) (snd pair))
      predictions
      (combine
         (fst (mapPredictions random prev currentTime predictions (S calls)))
         (fst (mapPredictions random prev currentTime predictions calls))).
Proof.
  induction predictions as [|pred rest IH]; intros calls; [constructor|].
  rewrite !mapPredictions_cons. cbn [fst combine].
  rewrite !trackPrediction_fields. cbn [fst snd].
  constructor.
  - unfold sameButDrawnLater, inheritedId, chooseId.
    cbn [fst snd]. split; [reflexivity|].
    destruct (existingObject prev pred) as [obj|];
      [destruct (TrackedObject.id obj) eqn:Eid|];
      cbn [fst snd TrackedObject.id].
    + exists calls. now split.
    + now split.
    + exists calls. now split.
  - unfold chooseId.
    destruct (existingObject prev pred) as [obj|];
      [destruct (TrackedObject.id obj)|]; cbn [fst snd]; apply IH.
Qed.

(** A cycle over a list that holds a malformed detection. *)
Lemma malformed_kept st before bad after now :
  malformed bad ->
  exists outBefore outAfter outAfter' calls,
    trackedObjects
      (updateTrackedObjects random st (before ++ bad :: after) now)
    = outBefore ++ strayRecord random bad (Num (IZR now)) calls :: outAfter
    /\ trackedObjects (updateTrackedObjects random st (before ++ after) now)
       = outBefore ++ outAfter'
    /\ length outBefore = length before
    /\ length outAfter = length after
    /\ length outAfter' = length after
    /\ Forall2
         (fun pred pair =>
            sameButDrawnLater random (trackedObjects st) pred
              (fst pair) (snd pair))
         after (combine outAfter outAfter').
Proof.
  intros Hbad. rewrite !updateTrackedObjects_unfiltered.
  rewrite !mapPredictions_app. cbn [fst].
  rewrite mapPredictions_cons, (malformed_record _ _ _ _ Hbad). cbn [fst snd].
  set (prev := trackedObjects st). set (currentTime := Num (IZR now)).
  set (calls := snd (mapPredictions random prev currentTime before
                       (randomCalls st))).
  exists (fst (mapPredictions random prev currentTime before (randomCalls st))),
    (fst (mapPredictions random prev currentTime after (S calls))),
    (fst (mapPredictions random prev currentTime after calls)), calls.
  split; [reflexivity|]. split; [reflexivity|].
  split; [apply mapPredictions_length|].
  split; [apply mapPredictions_length|].
  split; [apply mapPredictions_length|].
  apply mapPredictions_shift.
Qed.

End Malformed.

(** C8, as the code has it.  A malformed detection is not skipped: the
    cycle does not fail and gives it a record of its own, a new track
    with a freshly drawn identifier, a history of its single sample,
    speed 0 and action stationary.  The records of the detections
    before it are those of the cycle without it.  The record of a
    detection after it is that of the cycle without it in every field,
    the identifier included when it is inherited from a previous track;
    the identifier of a new track created after it comes from the next
    call of [Math.random] instead. *)
Theorem malformed_detection_kept :
  forall random st before bad after now,
    malformed bad ->
    exists outBefore outAfter outAfter' calls,
      trackedObjects
        (updateTrackedObjects random st (before ++ bad :: after) now)
      = outBefore ++ strayRecord random bad (Num (IZR now)) calls :: outAfter
      /\ trackedObjects
           (updateTrackedObjects random st (before ++ after) now)
         = outBefore ++ outAfter'
      /\ length outBefore = length before
      /\ length outAfter = length after
      /\ length outAfter' = length after
      /\ Forall2
           (fun pred pair =>
              sameButDrawnLater random (trackedObjects st) pred
                (fst pair) (snd pair))
           after (combine outAfter outAfter').
Proof. exact malformed_kept. Qed.

Lemma nanPerson_malformed : malformed Scene.nanPerson.
Proof. exists 0%nat. split; [lia | reflexivity]. Qed.

Lemma malformed_detection_kept_witness :
  exists outBefore outAfter outAfter' calls,
    trackedObjects
      (updateTrackedObjects Scene.fives (mkEngine [Scene.track7] 1)
         ([Scene.firstPerson] ++ Scene.nanPerson
          :: [Scene.secondPerson; Scene.catAgain]) 33)
    = outBefore ++ strayRecord Scene.fives Scene.nanPerson (Num 33) calls
      :: outAfter
    /\ trackedObjects
         (updateTrackedObjects Scene.fives (mkEngine [Scene.track7] 1)
            ([Scene.firstPerson] ++ [Scene.secondPerson; Scene.catAgain]) 33)
       = outBefore ++ outAfter'
    /\ length outBefore = length [Scene.firstPerson]
    /\ length outAfter = length [Scene.secondPerson; Scene.catAgain]
    /\ length outAfter' = length [Scene.secondPerson; Scene.catAgain]
    /\ Forall2
         (fun pred pair =>
            sameButDrawnLater Scene.fives [Scene.track7] pred
              (fst pair) (snd pair))
         [Scene.secondPerson; Scene.catAgain] (combine outAfter outAfter').
Proof.
  apply (malformed_detection_kept Scene.fives (mkEngine [Scene.track7] 1)
           [Scene.firstPerson] Scene.nanPerson
           [Scene.secondPerson; Scene.catAgain] 33).
  exact nanPerson_malformed.
Defined.

(** C8, counterexample to the claim as stated: a cycle whose only
    detection has a [NaN] bounding-box field publishes a record for it,
    a new track named by a fresh identifier. *)
Lemma malformed_detection_not_skipped :
  malformed Scene.nanPerson
  /\ trackedObjects
       (updateTrackedObjects Scene.fives initialEngine [Scene.nanPerson] 33)
     = [strayRecord Scene.fives Scene.nanPerson (Num 33) 0]
  /\ ids (trackedObjects
            (updateTrackedObjects Scene.fives initialEngine
               [Scene.nanPerson] 33))
     = ["person-5"%string].
Proof.
  split; [exact nanPerson_malformed|].
  rewrite updateTrackedObjects_unfiltered, mapPredictions_cons.
  rewrite (malformed_record _ _ _ _ _ nanPerson_malformed).
  split; reflexivity.
Qed.

(** * Further properties of the engine *)

(** ** The smoothing windows *)

Lemma slice_last_app {A : Type} (n : nat) (older recent : list A) :
  (n <= length recent)%nat ->
  slice_last n (older ++ recent) = slice_last n recent.
Proof.
  intros H. unfold slice_last. rewrite length_app, skipn_app.
  rewrite skipn_all2 by lia. cbn [app]. f_equal. lia.
Qed.

Lemma consecutivePairs_app (older : list Position.t) (p : Position.t)
  (rest : list Position.t) :
  consecutivePairs (older ++ p :: rest)
  = consecutivePairs (older ++ [p]) ++ consecutivePairs (p :: rest).
Proof.
  induction older as [|a older IH]; [reflexivity|].
  destruct older as [|b older].
  - reflexivity.
  - change (consecutivePairs ((a :: b :: older) ++ p :: rest))
      with ((a, b) :: consecutivePairs ((b :: older) ++ p :: rest)).
    rewrite IH. reflexivity.
Qed.

Lemma survivingSpeeds_app (older : list Position.t) (p : Position.t)
  (rest : list Position.t) :
  survivingSpeeds (older ++ p :: rest)
  = survivingSpeeds (older ++ [p]) ++ survivingSpeeds (p :: rest).
Proof.
  unfold survivingSpeeds.
  now rewrite consecutivePairs_app, filter_app, map_app.
Qed.

Lemma survivingSpeeds_length (positions : list Position.t) :
  (length (survivingSpeeds positions) <= length positions - 1)%nat.
Proof.
  unfold survivingSpeeds. rewrite length_map.
  rewrite <- consecutivePairs_length. apply filter_length_le.
Qed.

(** X2.  [determineAction] reads the last three samples only: samples
    older than a tail of at least three do not change the label. *)
Theorem determineAction_window :
  forall (older recent : list Position.t) (speed : number),
    (3 <= length recent)%nat ->
    determineAction (older ++ recent) speed = determineAction recent speed.
Proof.
  intros older recent speed H.
  unfold determineAction, recentMovement.
  rewrite (slice_last_app 3 older recent H), length_app.
  destruct (Nat.ltb_spec (length older + length recent) 2); [lia|].
  destruct (Nat.ltb_spec (length recent) 2); [lia | reflexivity].
Qed.

Lemma determineAction_window_witness :
  determineAction
    ([Scene.still; Scene.still]
     ++ [Scene.moveStart 0 0 0; Scene.still; Scene.moveEnd 0 0 0 100])
    (Num 4)
  = determineAction
      [Scene.moveStart 0 0 0; Scene.still; Scene.moveEnd 0 0 0 100] (Num 4).
Proof.
  apply determineAction_window. simpl. lia.
Defined.

(** X3.  [calculateSpeed] averages the last three surviving pairs only:
    once a tail of the history holds three surviving pairs, the samples
    before that tail do not change the speed. *)
Theorem calculateSpeed_window :
  forall (older recent : list Position.t),
    (SPEED_SMOOTHING_WINDOW <= length (survivingSpeeds recent))%nat ->
    calculateSpeed (older ++ recent) = calculateSpeed recent.
Proof.
  intros older recent H.
  assert (Hlen := survivingSpeeds_length recent).
  unfold SPEED_SMOOTHING_WINDOW in H.
  rewrite !calculateSpeed_unfold, length_app.
  destruct (Nat.ltb_spec (length older + length recent) 2); [lia|].
  destruct (Nat.ltb_spec (length recent) 2); [lia|].
  destruct recent as [|p rest]; [simpl in *; lia|].
  rewrite survivingSpeeds_app.
  rewrite (slice_last_app SPEED_SMOOTHING_WINDOW _ _ H).
  destruct (survivingSpeeds (p :: rest)) as [|s l] eqn:E; [simpl in H; lia|].
  now destruct (survivingSpeeds (older ++ [p])).
Qed.

(** ** Pairs of finite samples *)

Section FinitePair.
Variables x0 y0 t0 x1 y1 t1 : R.

Lemma pixelDistance_finite :
  pixelDistance (finiteSample x0 y0 t0) (finiteSample x1 y1 t1)
  = Num (pixels x0 y0 x1 y1).
Proof.
  unfold pixelDistance, finiteSample, pixels.
  cbn [Position.x Position.y sub mul add lift2 Math_sqrt].
  destruct (Rlt_dec _ 0) as [H|_]; [|reflexivity].
  assert (Hx := Rle_0_sqr (x1 - x0)). assert (Hy := Rle_0_sqr (y1 - y0)).
  unfold Rsqr in Hx, Hy. lra.
Qed.

Lemma elapsedSeconds_finite :
  elapsedSeconds (finiteSample x0 y0 t0) (finiteSample x1 y1 t1)
  = Num ((t1 - t0) / 1000).
Proof.
  unfold elapsedSeconds, finiteSample. cbn [Position.timestamp sub lift2].
  apply div_Num. lra.
Qed.

Lemma instantSpeed_finite :
  (t0 < t1)%R ->
  instantSpeed (finiteSample x0 y0 t0) (finiteSample x1 y1 t1)
  = Num (54 * pixels x0 y0 x1 y1 / (t1 - t0)).
Proof.
  intros Ht. unfold instantSpeed.
  rewrite pixelDistance_finite, elapsedSeconds_finite.
  unfold PIXEL_TO_METER, MS_TO_KMH. cbn [mul lift2].
  rewrite div_Num by lra. cbn [mul lift2]. apply f_equal. field. lra.
Qed.

Lemma survives_finite :
  survives (finiteSample x0 y0 t0, finiteSample x1 y1 t1) = true
  <-> (2 < pixels x0 y0 x1 y1)%R /\ (t0 < t1)%R
      /\ (9 * pixels x0 y0 x1 y1 < 5 * (t1 - t0))%R.
Proof.
  split.
  - intros H.
    apply survives_inv in H as (d & e & s & Ed & Hd & Ee & He & Es & Hs).
    rewrite pixelDistance_finite in Ed. injection Ed as <-.
    rewrite elapsedSeconds_finite in Ee. injection Ee as <-.
    assert (Ht : (t0 < t1)%R) by lra.
    rewrite (instantSpeed_finite Ht) in Es. injection Es as <-.
    split; [assumption|]. split; [assumption|].
    assert (E : (54 * pixels x0 y0 x1 y1 / (t1 - t0) * (t1 - t0)
                 = 54 * pixels x0 y0 x1 y1)%R) by (field; lra).
    nra.
  - intros (Hd & Ht & Hs). unfold survives.
    rewrite (instantSpeed_finite Ht), pixelDistance_finite,
      elapsedSeconds_finite.
    unfold gt, MIN_MOVEMENT_THRESHOLD, MAX_SPEED_THRESHOLD.
    rewrite !andb_true_iff, !lt_Num.
    split; [split; [assumption | lra]|].
    apply (Rmult_lt_reg_r (t1 - t0)); [lra|].
    replace (54 * pixels x0 y0 x1 y1 / (t1 - t0) * (t1 - t0))%R
      with (54 * pixels x0 y0 x1 y1)%R by (field; lra).
    lra.
Qed.

End FinitePair.

Lemma pixels_horizontal (x y d : R) :
  (0 <= d)%R -> pixels x y (x + d) y = d.
Proof.
  intros H. unfold pixels.
  replace ((x + d - x) * (x + d - x) + (y - y) * (y - y))%R with (d * d)%R
    by ring.
  now apply sqrt_square.
Qed.

Lemma jog_step (x t : R) :
  survives (finiteSample x 0 t, finiteSample (x + 10) 0 (t + 33)) = true.
Proof.
  apply survives_finite. rewrite pixels_horizontal by lra. lra.
Qed.

Lemma jog_speeds : length (survivingSpeeds jog) = 3%nat.
Proof.
  unfold survivingSpeeds, jog. cbn [consecutivePairs filter].
  now rewrite !jog_step.
Qed.

Lemma calculateSpeed_window_witness :
  calculateSpeed ([Scene.still; Scene.moveEnd 0 0 0 100] ++ jog)
  = calculateSpeed jog.
Proof.
  apply calculateSpeed_window. rewrite jog_speeds.
  unfold SPEED_SMOOTHING_WINDOW. lia.
Defined.

(** ** Tracks that do not move *)

Lemma consecutivePairs_In (l : list Position.t) (p q : Position.t) :
  In (p, q) (consecutivePairs l) -> In p l /\ In q l.
Proof.
  induction l as [|a l IH]; [intros []|].
  destruct l as [|b l]; [intros []|].
  change (consecutivePairs (a :: b :: l))
    with ((a, b) :: consecutivePairs (b :: l)).
  intros [[= <- <-] | H].
  - split; [now left | right; now left].
  - apply IH in H as [Hp Hq]. split; now right.
Qed.

Lemma calculateSpeed_no_survivor (positions : list Position.t) :
  (forall pair, In pair (consecutivePairs positions) -> survives pair = false) ->
  calculateSpeed positions = Num 0.
Proof.
  intros H. rewrite calculateSpeed_unfold.
  destruct (length positions <? 2)%nat; [reflexivity|].
  unfold survivingSpeeds.
  replace (filter survives (consecutivePairs positions)) with
    (@nil (Position.t * Position.t)); [reflexivity|].
  symmetry. induction (consecutivePairs positions) as [|pair l IH];
    [reflexivity|].
  cbn [filter]. rewrite (H pair) by now left.
  apply IH. intros pair' Hin. apply H. now right.
Qed.

Section Motionless.
Variables x y : R.

Lemma motionless_distance (p q : Position.t) :
  restsAt x y p -> restsAt x y q -> pixelDistance p q = Num 0.
Proof.
  intros [Hpx Hpy] [Hqx Hqy]. unfold pixelDistance.
  rewrite Hpx, Hpy, Hqx, Hqy. cbn [sub mul add lift2].
  apply Math_sqrt_square; [lra | ring].
Qed.

Lemma motionless_speed (positions : list Position.t) :
  Forall (restsAt x y) positions -> calculateSpeed positions = Num 0.
Proof.
  intros H. apply calculateSpeed_no_survivor. intros [p q] Hin.
  apply consecutivePairs_In in Hin as [Hp Hq].
  rewrite Forall_forall in H.
  apply not_survives. intros d e s Ed _ _ (Hd & _).
  rewrite (motionless_distance p q (H p Hp) (H q Hq)) in Ed.
  injection Ed as <-. lra.
Qed.

Lemma motionless_vertical (l : list Position.t) :
  Forall (restsAt x y) l -> total (absDeltas Position.y l) = Num 0.
Proof.
  induction 1 as [|p l [_ Hp] Hl IH]; [reflexivity|].
  destruct Hl as [|q l [_ Hq] Hl]; [reflexivity|].
  change (total (absDeltas Position.y (p :: q :: l)))
    with (add (Math_abs (sub (Position.y q) (Position.y p)))
            (total (absDeltas Position.y (q :: l)))).
  rewrite IH, Hp, Hq. cbn [sub add lift2 Math_abs]. apply f_equal.
  rewrite Rminus_diag, Rabs_R0. ring.
Qed.

Lemma motionless_sitting (positions : list Position.t) :
  (2 <= length positions)%nat ->
  Forall (restsAt x y) positions ->
  calculateSpeed positions = Num 0
  /\ determineAction positions (calculateSpeed positions) = "sitting"%string.
Proof.
  intros Hlen H. rewrite (motionless_speed positions H).
  split; [reflexivity|].
  rewrite determineAction_unfold. unfold actionTable, verticalMovementOf.
  rewrite (motionless_vertical _ (Forall_slice_last _ 3 _ H)).
  destruct (Nat.ltb_spec (length positions) 2); [lia|].
  unfold lt. decide_order; reflexivity.
Qed.

End Motionless.

(** X5.  A track of at least two samples that all lie at the same
    finite point, whatever their timestamps, has speed 0 and action
    sitting. *)
Theorem motionless_track_sits :
  forall (x y : R) (positions : list Position.t),
    (2 <= length positions)%nat ->
    Forall (restsAt x y) positions ->
    calculateSpeed positions = Num 0
    /\ determineAction positions (calculateSpeed positions)
       = "sitting"%string.
Proof. exact motionless_sitting. Qed.

Lemma motionless_track_sits_witness :
  calculateSpeed [finiteSample 4 7 0; finiteSample 4 7 33; finiteSample 4 7 20]
  = Num 0
  /\ determineAction
       [finiteSample 4 7 0; finiteSample 4 7 33; finiteSample 4 7 20]
       (calculateSpeed
          [finiteSample 4 7 0; finiteSample 4 7 33; finiteSample 4 7 20])
     = "sitting"%string.
Proof.
  apply (motionless_track_sits 4 7).
  - simpl. lia.
  - repeat constructor.
Defined.

Lemma determineAction_range (positions : list Position.t) (speed : number) :
  In (determineAction positions speed) actionLabels
  /\ (determineAction positions speed = "stationary"%string
      <-> (length positions < 2)%nat).
Proof.
  rewrite determineAction_unfold.
  unfold actionTable, actionLabels.
  destruct (Nat.ltb_spec (length positions) 2) as [Hlen|Hlen].
  - split; [now left|]. split; [intros _; exact Hlen | reflexivity].
  - destruct (lt speed (Num 1)), (lt (verticalMovementOf positions) (Num 4)),
      (lt speed (Num 3)),
      (gt (verticalMovementOf positions) (horizontalMovementOf positions)),
      (lt speed (Num 8)), (lt speed (Num 15)); cbn [andb];
      (split; [cbn [In]; tauto | split; [discriminate | lia]]).
Qed.

(** X6.  [determineAction] returns one of its seven labels, and the
    label stationary exactly for a history of fewer than two samples,
    whatever the speed. *)
Theorem determineAction_labels :
  forall (positions : list Position.t) (speed : number),
    In (determineAction positions speed) actionLabels
    /\ (determineAction positions speed = "stationary"%string
        <-> (length positions < 2)%nat).
Proof. exact determineAction_range. Qed.

Lemma determineAction_labels_witness :
  determineAction [Scene.still] (Num 20) = "stationary"%string.
Proof.
  apply (proj2 (determineAction_labels [Scene.still] (Num 20))).
  simpl. lia.
Defined.

(** ** The records of a cycle, detection by detection *)

Section Records.
Variable random : RandomSource.

(** Each published record is the one that [trackPrediction] makes for
    the detection at the same place of the list. *)
Lemma mapPredictions_Forall2 prev currentTime predictions :
  forall calls,
    Forall2
      (fun pred obj =>
         exists k,
           (calls <= k)%nat
           /\ obj = fst (trackPrediction random prev currentTime pred k))
      predictions
      (fst (mapPredictions random prev currentTime predictions calls)).
Proof.
  induction predictions as [|pred rest IH]; intros calls; [constructor|].
  rewrite mapPredictions_cons. cbn [fst]. constructor.
  - exists calls. split; [lia | reflexivity].
  - eapply Forall2_impl; [|apply IH].
    intros p obj (k & Hk & E). exists k. split; [|exact E].
    etransitivity; [|exact Hk].
    rewrite trackPrediction_fields. cbn [snd]. apply chooseId_calls.
Qed.

Lemma cycle_Forall2 st predictions now :
  Forall2
    (fun pred obj =>
       exists k,
         (randomCalls st <= k)%nat
         /\ obj = fst (trackPrediction random (trackedObjects st)
                         (Num (IZR now)) pred k))
    predictions
    (trackedObjects (updateTrackedObjects random st predictions now)).
Proof.
  rewrite updateTrackedObjects_unfiltered. apply mapPredictions_Forall2.
Qed.

Lemma Forall2_map_eq {A B C : Type} (f : A -> C) (g : B -> C)
  (l : list A) (l' : list B) :
  Forall2 (fun a b => f a = g b) l l' -> map f l = map g l'.
Proof.
  induction 1 as [|a b l l' E _ IH]; [reflexivity|].
  cbn [map]. now rewrite E, IH.
Qed.

Lemma Forall2_right {A B : Type} (P : B -> Prop) (l : list A) (l' : list B) :
  Forall2 (fun _ b => P b) l l' -> Forall P l'.
Proof. induction 1; constructor; assumption. Qed.

Lemma cycle_aligned st predictions now :
  let out := trackedObjects (updateTrackedObjects random st predictions now) in
  length out = length predictions
  /\ map TrackedObject.class out = map Detection.class predictions
  /\ map TrackedObject.bbox out = map Detection.bbox predictions
  /\ map TrackedObject.score out = map Detection.score predictions
  /\ Forall (fun obj => TrackedObject.lastUpdate obj = Num (IZR now)) out.
Proof.
  intros out. assert (H := cycle_Forall2 st predictions now). fold out in H.
  split; [symmetry; exact (Forall2_length H)|].
  repeat apply conj.
  - symmetry. apply Forall2_map_eq. eapply Forall2_impl; [|exact H].
    intros pred obj (k & _ & ->). now rewrite trackPrediction_fields.
  - symmetry. apply Forall2_map_eq. eapply Forall2_impl; [|exact H].
    intros pred obj (k & _ & ->). now rewrite trackPrediction_fields.
  - symmetry. apply Forall2_map_eq. eapply Forall2_impl; [|exact H].
    intros pred obj (k & _ & ->). now rewrite trackPrediction_fields.
  - apply (Forall2_right _ predictions). eapply Forall2_impl; [|exact H].
    intros pred obj (k & _ & ->). now rewrite trackPrediction_fields.
Qed.

Lemma cycle_consistent st predictions now :
  Forall
    (fun obj =>
       TrackedObject.speed obj = calculateSpeed (TrackedObject.positions obj)
       /\ TrackedObject.action obj
          = determineAction (TrackedObject.positions obj)
              (TrackedObject.speed obj)
       /\ (exists z : Z,
              TrackedObject.speed obj = Num (IZR z) /\ (0 <= z <= 30)%Z)
       /\ In (TrackedObject.action obj) actionLabels)
    (trackedObjects (updateTrackedObjects random st predictions now)).
Proof.
  apply (Forall2_right _ predictions).
  eapply Forall2_impl; [|apply cycle_Forall2].
  intros pred obj (k & _ & ->). rewrite trackPrediction_fields.
  cbn [fst TrackedObject.speed TrackedObject.action TrackedObject.positions].
  split; [reflexivity|]. split; [reflexivity|].
  split; [apply calculateSpeed_bounded | apply determineAction_range].
Qed.

End Records.

(** X7.  A cycle publishes exactly one record per detection, in the
    order of the detector, with the class, the bounding box and the
    score of its detection and the time of the cycle as last update;
    the staleness filter therefore removes none of them. *)
Theorem cycle_output_aligned :
  forall random st predictions now,
    length (trackedObjects (updateTrackedObjects random st predictions now))
    = length predictions
    /\ map TrackedObject.class
         (trackedObjects (updateTrackedObjects random st predictions now))
       = map Detection.class predictions
    /\ map TrackedObject.bbox
         (trackedObjects (updateTrackedObjects random st predictions now))
       = map Detection.bbox predictions
    /\ map TrackedObject.score
         (trackedObjects (updateTrackedObjects random st predictions now))
       = map Detection.score predictions
    /\ Forall (fun obj => TrackedObject.lastUpdate obj = Num (IZR now))
         (trackedObjects (updateTrackedObjects random st predictions now)).
Proof. exact cycle_aligned. Qed.

(** X8.  In every published record the derived fields agree with the
    history: the speed is [calculateSpeed] of the record's positions,
    an integer between 0 and 30, and the action is [determineAction] of
    those positions and that speed, one of the seven labels. *)
Theorem cycle_records_consistent :
  forall random st predictions now,
    Forall
      (fun obj =>
         TrackedObject.speed obj
         = calculateSpeed (TrackedObject.positions obj)
         /\ TrackedObject.action obj
            = determineAction (TrackedObject.positions obj)
                (TrackedObject.speed obj)
         /\ (exists z : Z,
                TrackedObject.speed obj = Num (IZR z) /\ (0 <= z <= 30)%Z)
         /\ In (TrackedObject.action obj) actionLabels)
      (trackedObjects (updateTrackedObjects random st predictions now)).
Proof. exact cycle_consistent. Qed.

(** ** New tracks and continued tracks *)

Lemma pushPosition_cases (h : list Position.t) (s : Position.t) :
  ((length h < POSITION_HISTORY)%nat /\ pushPosition h s = h ++ [s])
  \/ ((POSITION_HISTORY <= length h)%nat /\ pushPosition h s = tl h ++ [s]).
Proof.
  destruct (Nat.lt_ge_cases (length h) POSITION_HISTORY) as [H|H].
  - left. split; [exact H | now apply pushPosition_room].
  - right. split; [exact H | now apply pushPosition_full].
Qed.

Lemma pushPosition_two (h : list Position.t) (s : Position.t) :
  h <> [] -> (2 <= length (pushPosition h s))%nat.
Proof.
  intros Hne. destruct (pushPosition_cases h s) as [[_ ->] | [Hlen ->]];
    rewrite length_app; cbn [length].
  - destruct h; [easy | simpl; lia].
  - unfold POSITION_HISTORY in Hlen. destruct h; simpl in *; lia.
Qed.

Section NewAndContinued.
Variable random : RandomSource.

Lemma unmatched_record prev currentTime pred calls :
  existingObject prev pred = None ->
  trackPrediction random prev currentTime pred calls
  = (strayRecord random pred currentTime calls, S calls).
Proof.
  intros E. rewrite trackPrediction_fields. unfold historyOf.
  rewrite E. reflexivity.
Qed.

Lemma stationary_unmatched prev currentTime pred calls :
  Forall (fun t => TrackedObject.positions t <> []) prev ->
  TrackedObject.action
    (fst (trackPrediction random prev currentTime pred calls))
  = "stationary"%string
  <-> unmatched prev pred = true.
Proof.
  intros Hprev. unfold unmatched.
  destruct (existingObject prev pred) as [t|] eqn:E.
  - rewrite trackPrediction_fields. cbn [fst TrackedObject.action].
    rewrite (proj2 (determineAction_range _ _)).
    unfold historyOf. rewrite E.
    assert (Ht : TrackedObject.positions t <> []).
    { rewrite Forall_forall in Hprev. apply Hprev.
      now apply existingObject_In in E. }
    assert (H2 := pushPosition_two _ (sampleOf pred currentTime) Ht).
    split; [lia | discriminate].
  - rewrite (unmatched_record _ _ _ _ E). now split.
Qed.

Lemma cycle_new_tracks st predictions now :
  Forall (fun t => TrackedObject.positions t <> []) (trackedObjects st) ->
  Forall2
    (fun pred obj =>
       (TrackedObject.action obj = "stationary"%string
        <-> unmatched (trackedObjects st) pred = true)
       /\ (unmatched (trackedObjects st) pred = true ->
           exists k,
             (randomCalls st <= k)%nat
             /\ obj = strayRecord random pred (Num (IZR now)) k))
    predictions
    (trackedObjects (updateTrackedObjects random st predictions now))
  /\ Forall (fun t => TrackedObject.positions t <> [])
       (trackedObjects (updateTrackedObjects random st predictions now)).
Proof.
  intros Hprev. split.
  - eapply Forall2_impl; [|apply cycle_Forall2].
    intros pred obj (k & Hk & ->). split.
    + now apply stationary_unmatched.
    + unfold unmatched.
      destruct (existingObject (trackedObjects st) pred) eqn:E;
        [discriminate|].
      intros _. exists k. split; [exact Hk|].
      now rewrite (unmatched_record _ _ _ _ E).
  - apply (Forall2_right _ predictions).
    eapply Forall2_impl; [|apply cycle_Forall2].
    intros pred obj (k & _ & ->). rewrite trackPrediction_fields.
    cbn [fst TrackedObject.positions]. unfold historyOf.
    destruct (pushPosition_cases
                (match existingObject (trackedObjects st) pred with
                 | Some t => TrackedObject.positions t
                 | None => []
                 end) (sampleOf pred (Num (IZR now)))) as [[_ ->] | [_ ->]];
      intros Hnil; now apply app_eq_nil in Hnil as [_ Hnil].
Qed.

Lemma cycle_histories st predictions now :
  Forall2
    (fun pred obj =>
       exists h,
         TrackedObject.positions obj = h ++ [sampleOf pred (Num (IZR now))]
         /\ match existingObject (trackedObjects st) pred with
            | None => h = []
            | Some t =>
                ((length (TrackedObject.positions t) < POSITION_HISTORY)%nat
                 /\ h = TrackedObject.positions t)
                \/ ((POSITION_HISTORY <= length (TrackedObject.positions t))%nat
                    /\ h = tl (TrackedObject.positions t))
            end)
    predictions
    (trackedObjects (updateTrackedObjects random st predictions now)).
Proof.
  eapply Forall2_impl; [|apply cycle_Forall2].
  intros pred obj (k & _ & ->). rewrite trackPrediction_fields.
  cbn [fst TrackedObject.positions]. unfold historyOf.
  destruct (existingObject (trackedObjects st) pred) as [t|].
  - destruct (pushPosition_cases (TrackedObject.positions t)
                (sampleOf pred (Num (IZR now)))) as [[Hlen ->] | [Hlen ->]].
    + exists (TrackedObject.positions t).
      split; [reflexivity | left; now split].
    + exists (tl (TrackedObject.positions t)).
      split; [reflexivity | right; now split].
  - exists []. split; reflexivity.
Qed.

End NewAndContinued.

(** X9.  When every previous track has a non-empty history, as every
    published track has, a record is labelled stationary exactly when
    its detection matched no previous track; it is then a new track
    with a freshly drawn identifier, a single sample and speed 0. *)
Theorem stationary_means_new :
  forall random st predictions now,
    Forall (fun t => TrackedObject.positions t <> []) (trackedObjects st) ->
    Forall2
      (fun pred obj =>
         (TrackedObject.action obj = "stationary"%string
          <-> unmatched (trackedObjects st) pred = true)
         /\ (unmatched (trackedObjects st) pred = true ->
             exists k,
               (randomCalls st <= k)%nat
               /\ obj = strayRecord random pred (Num (IZR now)) k))
      predictions
      (trackedObjects (updateTrackedObjects random st predictions now))
    /\ Forall (fun t => TrackedObject.positions t <> [])
         (trackedObjects (updateTrackedObjects random st predictions now)).
Proof. exact cycle_new_tracks. Qed.

Lemma stationary_means_new_witness :
  Forall (fun t => TrackedObject.positions t <> [])
    (trackedObjects
       (updateTrackedObjects Scene.fives (mkEngine [Scene.track7] 1)
          [Scene.firstPerson; Scene.catAgain] 33)).
Proof.
  apply (stationary_means_new Scene.fives (mkEngine [Scene.track7] 1)
           [Scene.firstPerson; Scene.catAgain] 33).
  constructor; [discriminate | constructor].
Defined.

(** X10.  The history of a published record ends with the centre of
    its detection at the time of the cycle; before that sample comes
    nothing for a new track and, for a continued track, the history of
    the matched track, whole while it holds fewer than 15 samples and
    without its oldest sample once it holds 15 or more. *)
Theorem history_continued :
  forall random st predictions now,
    Forall2
      (fun pred obj =>
         exists h,
           TrackedObject.positions obj
           = h ++ [sampleOf pred (Num (IZR now))]
           /\ match existingObject (trackedObjects st) pred with
              | None => h = []
              | Some t =>
                  ((length (TrackedObject.positions t)
                    < POSITION_HISTORY)%nat
                   /\ h = TrackedObject.positions t)
                  \/ ((POSITION_HISTORY
                       <= length (TrackedObject.positions t))%nat
                      /\ h = tl (TrackedObject.positions t))
              end)
      predictions
      (trackedObjects (updateTrackedObjects random st predictions now)).
Proof. exact cycle_histories. Qed.

(** ** Histories in the order of time *)

Lemma chronological_later (b b' : Z) (h : list Position.t) :
  (b <= b')%Z -> chronological b h -> chronological b' h.
Proof.
  intros Hb (ts & E & Hs & Hle). exists ts. repeat split; try assumption.
  eapply Forall_impl; [|exact Hle]. intros z Hz. cbn beta in Hz. lia.
Qed.

Lemma chronological_tl (b : Z) (h : list Position.t) :
  chronological b h -> chronological b (tl h).
Proof.
  intros (ts & E & Hs & Hle). exists (tl ts).
  destruct h as [|p h], ts as [|z ts]; try discriminate;
    [repeat split; assumption|].
  cbn [tl map] in *. injection E as _ E.
  repeat split; [assumption | now inversion Hs | now inversion Hle].
Qed.

Lemma StronglySorted_snoc (ts : list Z) (z : Z) :
  StronglySorted Z.le ts -> Forall (fun u => (u <= z)%Z) ts ->
  StronglySorted Z.le (ts ++ [z]).
Proof.
  induction 1 as [|u ts Hs IH Hu]; intros Hle; cbn [app].
  - repeat constructor.
  - inversion Hle as [|? ? Huz Hle']; subst. constructor; [now apply IH|].
    apply Forall_app. split; [assumption | now constructor].
Qed.

Lemma chronological_snoc (b now : Z) (h : list Position.t) (s : Position.t) :
  (b <= now)%Z -> Position.timestamp s = Num (IZR now) ->
  chronological b h -> chronological now (h ++ [s]).
Proof.
  intros Hb Es (ts & E & Hs & Hle). exists (ts ++ [now]).
  assert (Hle' : Forall (fun u => (u <= now)%Z) ts).
  { eapply Forall_impl; [|exact Hle]. intros z Hz. cbn beta in Hz. lia. }
  rewrite !map_app. cbn [map]. rewrite E, Es.
  split; [reflexivity|]. split; [now apply StronglySorted_snoc|].
  apply Forall_app. split; [assumption|]. constructor; [lia | constructor].
Qed.

Lemma chronological_push (b now : Z) (h : list Position.t) (s : Position.t) :
  (b <= now)%Z -> Position.timestamp s = Num (IZR now) ->
  chronological b h -> chronological now (pushPosition h s).
Proof.
  intros Hb Es Hh. unfold pushPosition.
  destruct (POSITION_HISTORY <? length (h ++ [s]))%nat.
  - apply chronological_tl. now apply (chronological_snoc b).
  - now apply (chronological_snoc b).
Qed.

Section Chronology.
Variable random : RandomSource.

Lemma cycle_chronological st predictions (b now : Z) :
  (b <= now)%Z ->
  Forall (fun t => chronological b (TrackedObject.positions t))
    (trackedObjects st) ->
  Forall (fun t => chronological now (TrackedObject.positions t))
    (trackedObjects (updateTrackedObjects random st predictions now)).
Proof.
  intros Hb Hprev. apply (Forall2_right _ predictions).
  eapply Forall2_impl; [|apply cycle_Forall2].
  intros pred obj (k & _ & ->). rewrite trackPrediction_fields.
  cbn [fst TrackedObject.positions]. unfold historyOf.
  apply (chronological_push b); [assumption | reflexivity |].
  destruct (existingObject (trackedObjects st) pred) as [t|] eqn:E.
  - rewrite Forall_forall in Hprev. apply Hprev.
    now apply existingObject_In in E.
  - exists []. repeat split; constructor.
Qed.

Lemma runCycles_chronological cycles :
  forall st (b : Z),
    Forall (fun t => chronological b (TrackedObject.positions t))
      (trackedObjects st) ->
    StronglySorted Z.le (b :: map snd cycles) ->
    Forall2
      (fun cycle out =>
         Forall (fun t => chronological (snd cycle) (TrackedObject.positions t))
           out)
      cycles (runCycles random st cycles).
Proof.
  induction cycles as [|[predictions now] rest IH]; intros st b Hst Hs;
    [constructor|].
  cbn [runCycles map snd] in *.
  inversion Hs as [|? ? Hs' Hb]; subst.
  inversion Hb as [|? ? Hnow _]; subst.
  assert (Hout := cycle_chronological st predictions b now Hnow Hst).
  constructor; [exact Hout|]. now apply (IH _ now).
Qed.

End Chronology.

(** X11.  When the times of the cycles never decrease, every history
    that the engine publishes is in the order of time: its timestamps
    are ascending and none is later than the time of the cycle.  This
    holds from the empty engine, and from any engine whose histories
    are in order up to a time not later than the first cycle. *)
Theorem histories_chronological :
  (forall random cycles,
      StronglySorted Z.le (map snd cycles) ->
      Forall2
        (fun cycle out =>
           Forall
             (fun t => chronological (snd cycle) (TrackedObject.positions t))
             out)
        cycles (runCycles random initialEngine cycles))
  /\ (forall random st b cycles,
        Forall (fun t => chronological b (TrackedObject.positions t))
          (trackedObjects st) ->
        StronglySorted Z.le (b :: map snd cycles) ->
        Forall2
          (fun cycle out =>
             Forall
               (fun t =>
                  chronological (snd cycle) (TrackedObject.positions t))
               out)
          cycles (runCycles random st cycles)).
Proof.
  split.
  - intros random [|[predictions now] rest] Hs; [constructor|].
    apply (runCycles_chronological random _ initialEngine now);
      [constructor|].
    cbn [map snd] in *. constructor; [exact Hs|].
    constructor; [lia|]. now inversion Hs.
  - intros random st b cycles. apply runCycles_chronological.
Qed.

Lemma histories_chronological_witness :
  Forall2
    (fun cycle out =>
       Forall (fun t => chronological (snd cycle) (TrackedObject.positions t))
         out)
    [([Scene.firstPerson], 33%Z); ([Scene.secondPerson], 66%Z)]
    (runCycles Scene.fives initialEngine
       [([Scene.firstPerson], 33%Z); ([Scene.secondPerson], 66%Z)]).
Proof.
  apply (proj1 histories_chronological).
  cbn [map snd]. repeat constructor. lia.
Defined.

(** ** What a cycle reads of the previous tracks *)

Lemma sameObject_core pred centerX centerY (a b : TrackedObject.t) :
  core a = core b ->
  sameObject pred centerX centerY a = sameObject pred centerX centerY b.
Proof.
  unfold core, sameObject. intros [= Hc Hb _]. now rewrite Hc, Hb.
Qed.

Lemma find_core pred centerX centerY (l1 : list TrackedObject.t) :
  forall l2,
    map core l1 = map core l2 ->
    option_map core (find (sameObject pred centerX centerY) l1)
    = option_map core (find (sameObject pred centerX centerY) l2).
Proof.
  induction l1 as [|a l1 IH]; intros [|b l2] E; try discriminate;
    [reflexivity|].
  assert (Eab : core a = core b) by exact (f_equal (hd (core a)) E).
  assert (El : map core l1 = map core l2) by exact (f_equal (@tl _) E).
  cbn [find]. rewrite (sameObject_core _ _ _ a b Eab).
  destruct (sameObject pred centerX centerY b).
  - cbn [option_map]. now rewrite Eab.
  - now apply IH.
Qed.

Lemma historyOf_core prev1 prev2 pred currentTime :
  map core prev1 = map core prev2 ->
  historyOf prev1 pred currentTime = historyOf prev2 pred currentTime.
Proof.
  intros E. unfold historyOf. rewrite !existingObject_find.
  apply (find_core pred (fst (centerOf (Detection.bbox pred)))
           (snd (centerOf (Detection.bbox pred)))) in E.
  destruct (find _ prev1) as [o1|], (find _ prev2) as [o2|];
    try discriminate; [|reflexivity].
  cbn [option_map] in E.
  assert (Ep : TrackedObject.positions o1 = TrackedObject.positions o2)
    by (unfold core in E; now injection E).
  now rewrite Ep.
Qed.

Section ReadSet.
Variables random1 random2 : RandomSource.

Lemma cycle_core st1 st2 predictions now :
  map core (trackedObjects st1) = map core (trackedObjects st2) ->
  map eraseId
    (trackedObjects (updateTrackedObjects random1 st1 predictions now))
  = map eraseId
      (trackedObjects (updateTrackedObjects random2 st2 predictions now)).
Proof.
  intros E. rewrite !updateTrackedObjects_unfiltered.
  generalize (randomCalls st1) (randomCalls st2).
  induction predictions as [|pred rest IH]; intros calls1 calls2;
    [reflexivity|].
  rewrite !mapPredictions_cons. cbn [fst map]. f_equal; [|apply IH].
  rewrite !trackPrediction_fields. cbn [fst]. unfold eraseId. cbn.
  now rewrite (historyOf_core _ _ pred (Num (IZR now)) E).
Qed.

Lemma runCycles_core cycles st1 st2 :
  map core (trackedObjects st1) = map core (trackedObjects st2) ->
  map (map eraseId) (runCycles random1 st1 cycles)
  = map (map eraseId) (runCycles random2 st2 cycles).
Proof.
  destruct cycles as [|[predictions now] rest]; intros E; [reflexivity|].
  cbn [runCycles map].
  assert (E' := cycle_core st1 st2 predictions now E).
  rewrite E'. apply f_equal. now apply runCycles_erased.
Qed.

End ReadSet.

(** X12.  Of the previous tracks a cycle reads the class, the bounding
    box and the positions only: two engines whose tracks agree on these
    three fields, whatever their identifiers, speeds, scores, actions,
    update times and random sources, publish in every later cycle
    records that differ in their identifiers at most. *)
Theorem cycle_reads_core_only :
  forall random1 random2 st1 st2 cycles,
    map core (trackedObjects st1) = map core (trackedObjects st2) ->
    map (map eraseId) (runCycles random1 st1 cycles)
    = map (map eraseId) (runCycles random2 st2 cycles).
Proof.
  intros random1 random2 st1 st2 cycles. apply runCycles_core.
Qed.

Lemma cycle_reads_core_only_witness :
  map (map eraseId)
    (runCycles Scene.fives (mkEngine [Scene.track7] 1)
       [([Scene.firstPerson], 33%Z)])
  = map (map eraseId)
      (runCycles (fun _ => "8"%string)
         (mkEngine
            [TrackedObject.mk "x" "person"
               [Position.mk (Num 100) (Num 100) (Num 0)] (Num 12)
               (Scene.box 90 90) (Num 0) "running" (Num 5)] 0)
         [([Scene.firstPerson], 33%Z)]).
Proof.
  apply cycle_reads_core_only. reflexivity.
Defined.

(** ** One record per detection *)

Lemma cycle_pointwise random st predictions now :
  map eraseId
    (trackedObjects (updateTrackedObjects random st predictions now))
  = map (fun pred =>
           eraseId
             (fst (trackPrediction random (trackedObjects st)
                     (Num (IZR now)) pred 0)))
      predictions.
Proof.
  symmetry. apply Forall2_map_eq.
  eapply Forall2_impl; [|apply cycle_Forall2].
  intros pred obj (k & _ & ->). now apply trackPrediction_erased.
Qed.

(** X13.  Up to its identifier each record is a function of its own
    detection, the previous tracks and the time of the cycle: the other
    detections of the list, their number and their order have no
    influence on it, so that the records of a concatenated list are
    those of its parts. *)
Theorem records_independent :
  forall random st now,
    (forall predictions,
        map eraseId
          (trackedObjects (updateTrackedObjects random st predictions now))
        = map (fun pred =>
                 eraseId
                   (fst (trackPrediction random (trackedObjects st)
                           (Num (IZR now)) pred 0)))
            predictions)
    /\ (forall before after,
          map eraseId
            (trackedObjects
               (updateTrackedObjects random st (before ++ after) now))
          = map eraseId
              (trackedObjects (updateTrackedObjects random st before now))
            ++ map eraseId
                 (trackedObjects (updateTrackedObjects random st after now))).
Proof.
  intros random st now. split.
  - intros predictions. apply cycle_pointwise.
  - intros before after. rewrite !cycle_pointwise. apply map_app.
Qed.

(** ** The gate and the Euclidean distance *)

Lemma pixels_coordinates (x0 y0 x1 y1 r : R) :
  (0 <= r)%R -> (pixels x0 y0 x1 y1 < r)%R ->
  (Rabs (x1 - x0) < r)%R /\ (Rabs (y1 - y0) < r)%R.
Proof.
  intros Hr H. unfold pixels in H.
  set (u := ((x1 - x0) * (x1 - x0) + (y1 - y0) * (y1 - y0))%R) in *.
  assert (Hx := Rle_0_sqr (x1 - x0)). assert (Hy := Rle_0_sqr (y1 - y0)).
  unfold Rsqr in Hx, Hy.
  assert (Hu : (u < r * r)%R).
  { destruct (Rlt_le_dec u (r * r)) as [Hlt|Hge]; [exact Hlt|].
    apply sqrt_le_1_alt in Hge. rewrite sqrt_square in Hge by assumption.
    lra. }
  unfold u in Hu.
  split; apply Rabs_def1; nra.
Qed.

Lemma gate_in_circle (dx dy : R) :
  (Rabs dx < 50)%R -> (Rabs dy < 50)%R -> (dx * dx + dy * dy < 5000)%R.
Proof.
  intros Hx Hy. apply Rabs_def2 in Hx, Hy. nra.
Qed.

Lemma close_is_matched prev pred obj (ox oy px py : R) :
  In obj prev ->
  TrackedObject.class obj = Detection.class pred ->
  centerOf (TrackedObject.bbox obj) = (Num ox, Num oy) ->
  centerOf (Detection.bbox pred) = (Num px, Num py) ->
  (pixels px py ox oy < 50)%R ->
  exists t, existingObject prev pred = Some t.
Proof.
  intros Hin Hc Eo Ep Hd.
  destruct (existingObject prev pred) as [t|] eqn:E; [now exists t|].
  exfalso. apply (proj1 (existingObject_none prev pred) E obj Hin).
  apply (withinGate_centers _ _ _ _ _ _ Eo Ep).
  split; [exact Hc|]. apply pixels_coordinates; [lra | exact Hd].
Qed.

(** X14.  The rectangular gate contains the circle of radius 50 and
    lies within the circle of radius 50 times the square root of 2: a
    detection whose centre is less than 50 pixels, in Euclidean
    distance, from the centre of a previous track of its class is
    always associated with some previous track, and a detection within
    the gate of a track is at a squared distance below 5000 from it. *)
Theorem gate_and_distance :
  (forall prev pred obj (ox oy px py : R),
      In obj prev ->
      TrackedObject.class obj = Detection.class pred ->
      centerOf (TrackedObject.bbox obj) = (Num ox, Num oy) ->
      centerOf (Detection.bbox pred) = (Num px, Num py) ->
      (pixels px py ox oy < 50)%R ->
      exists t, existingObject prev pred = Some t)
  /\ (forall prev pred obj (ox oy px py : R),
        existingObject prev pred = Some obj ->
        centerOf (TrackedObject.bbox obj) = (Num ox, Num oy) ->
        centerOf (Detection.bbox pred) = (Num px, Num py) ->
        ((ox - px) * (ox - px) + (oy - py) * (oy - py) < 5000)%R).
Proof.
  split; [exact close_is_matched|].
  intros prev pred obj ox oy px py E Eo Ep.
  apply existingObject_first in E as (_ & _ & _ & Hg & _).
  apply (withinGate_centers _ _ _ _ _ _ Eo Ep) in Hg as (_ & Hx & Hy).
  now apply gate_in_circle.
Qed.

Lemma pixels_below (x0 y0 x1 y1 r : R) :
  (0 <= r)%R ->
  ((x1 - x0) * (x1 - x0) + (y1 - y0) * (y1 - y0) < r * r)%R ->
  (pixels x0 y0 x1 y1 < r)%R.
Proof.
  intros Hr H. unfold pixels. rewrite <- (sqrt_square r Hr).
  apply sqrt_lt_1_alt. split; [|exact H].
  assert (Hx := Rle_0_sqr (x1 - x0)). assert (Hy := Rle_0_sqr (y1 - y0)).
  unfold Rsqr in Hx, Hy. lra.
Qed.

Lemma gate_and_distance_witness :
  exists t,
    existingObject [Scene.farTrack; Scene.track7] Scene.firstPerson = Some t.
Proof.
  apply (proj1 gate_and_distance [Scene.farTrack; Scene.track7]
           Scene.firstPerson Scene.track7 (90 + 10)%R (90 + 10)%R
           (95 + 10)%R (90 + 10)%R).
  - right. now left.
  - reflexivity.
  - apply centerOf_scene_box.
  - apply centerOf_scene_box.
  - apply pixels_below; lra.
Defined.

(** ** The calls of Math.random *)

Lemma append_cancel (s a b : string) :
  (s ++ a)%string = (s ++ b)%string -> a = b.
Proof.
  induction s as [|c s IH]; cbn [String.append]; [trivial|].
  intros [= H]. now apply IH.
Qed.

Lemma Forall2_combine {A B : Type} (P : A -> B -> Prop) (l : list A)
  (l' : list B) :
  Forall2 P l l' -> Forall (fun ab => P (fst ab) (snd ab)) (combine l l').
Proof. induction 1; cbn [combine]; constructor; assumption. Qed.

Section RandomCalls.
Variable random : RandomSource.

Lemma mapPredictions_counted prev currentTime predictions :
  Forall (fun t => TrackedObject.id t <> EmptyString) prev ->
  forall calls,
    snd (mapPredictions random prev currentTime predictions calls)
    = (calls + length (filter (unmatched prev) predictions))%nat.
Proof.
  intros Hprev.
  induction predictions as [|pred rest IH]; intros calls;
    [simpl; lia|].
  rewrite mapPredictions_cons, trackPrediction_fields. cbn [snd filter].
  rewrite IH. unfold unmatched at 2.
  destruct (existingObject prev pred) as [t|] eqn:E.
  - rewrite chooseId_reuse; [reflexivity|].
    rewrite Forall_forall in Hprev. apply Hprev.
    now apply existingObject_In in E.
  - cbn [chooseId snd length]. lia.
Qed.

Lemma cycle_fresh_ids prev currentTime predictions :
  (forall j k, random j = random k -> j = k) ->
  forall calls,
    ForallOrdPairs
      (fun a b =>
         unmatched prev (fst a) = true -> unmatched prev (fst b) = true ->
         Detection.class (fst a) = Detection.class (fst b) ->
         TrackedObject.id (snd a) <> TrackedObject.id (snd b))
      (combine predictions
         (fst (mapPredictions random prev currentTime predictions calls))).
Proof.
  intros Hinj.
  induction predictions as [|pred rest IH]; intros calls; [constructor|].
  rewrite mapPredictions_cons. cbn [fst combine].
  constructor; [|apply IH].
  eapply Forall_impl;
    [|apply Forall2_combine, (mapPredictions_Forall2 random)].
  intros [p2 o2] (k & Hk & E) Ha Hb Hc. cbn [fst snd] in *. subst o2.
  unfold unmatched in Ha, Hb.
  destruct (existingObject prev pred) eqn:E1; [discriminate|].
  destruct (existingObject prev p2) eqn:E2; [discriminate|].
  rewrite (unmatched_record random _ _ _ _ E1) in *.
  rewrite (unmatched_record random _ _ _ _ E2).
  cbn [fst snd strayRecord TrackedObject.id] in *.
  unfold freshId. rewrite Hc. intros Hid.
  apply append_cancel, append_cancel, Hinj in Hid. lia.
Qed.

End RandomCalls.

(** X15.  When the previous tracks carry non-empty identifiers, as all
    published tracks do, a cycle calls [Math.random] once for each
    detection that matches no previous track and not at all for the
    others. *)
Theorem random_calls_counted :
  forall random st predictions now,
    Forall (fun t => TrackedObject.id t <> EmptyString) (trackedObjects st) ->
    randomCalls (updateTrackedObjects random st predictions now)
    = (randomCalls st
       + length (filter (unmatched (trackedObjects st)) predictions))%nat.
Proof.
  intros random st predictions now H.
  rewrite updateTrackedObjects_calls. now apply mapPredictions_counted.
Qed.

Lemma random_calls_counted_witness :
  randomCalls
    (updateTrackedObjects Scene.fives (mkEngine [Scene.track7] 1)
       [Scene.firstPerson; Scene.catAgain] 33)
  = (1 + length (filter (unmatched [Scene.track7])
                   [Scene.firstPerson; Scene.catAgain]))%nat.
Proof.
  apply (random_calls_counted Scene.fives (mkEngine [Scene.track7] 1)).
  constructor; [discriminate | constructor].
Defined.

(** X16.  When [Math.random] never returns the same value twice, two
    new tracks of the same class created in one cycle never receive the
    same identifier. *)
Theorem new_ids_distinct :
  forall random st predictions now,
    (forall j k, random j = random k -> j = k) ->
    ForallOrdPairs
      (fun a b =>
         unmatched (trackedObjects st) (fst a) = true ->
         unmatched (trackedObjects st) (fst b) = true ->
         Detection.class (fst a) = Detection.class (fst b) ->
         TrackedObject.id (snd a) <> TrackedObject.id (snd b))
      (combine predictions
         (trackedObjects (updateTrackedObjects random st predictions now))).
Proof.
  intros random st predictions now Hinj.
  rewrite updateTrackedObjects_unfiltered. now apply cycle_fresh_ids.
Qed.

Lemma tally_injective (j k : nat) : tally j = tally k -> j = k.
Proof.
  revert k. induction j as [|j IH]; intros [|k]; cbn [tally];
    try discriminate; [reflexivity|].
  intros [= H]. f_equal. now apply IH.
Qed.

Lemma new_ids_distinct_witness :
  ForallOrdPairs
    (fun a b =>
       unmatched [Scene.track7] (fst a) = true ->
       unmatched [Scene.track7] (fst b) = true ->
       Detection.class (fst a) = Detection.class (fst b) ->
       TrackedObject.id (snd a) <> TrackedObject.id (snd b))
    (combine [Scene.catAgain; Scene.catAgain]
       (trackedObjects
          (updateTrackedObjects tally (mkEngine [Scene.track7] 1)
             [Scene.catAgain; Scene.catAgain] 33))).
Proof.
  apply (new_ids_distinct tally (mkEngine [Scene.track7] 1)).
  exact tally_injective.
Defined.

(** ** ObjectTracker.tsx *)




Section PublishedLabels.
Variable numberText : number -> string.
Variable random : RandomSource.

Lemma speedText_integer (obj : TrackedObject.t) (z : Z) :
  TrackedObject.speed obj = Num (IZR z) -> (0 <= z)%Z ->
  (z = 0%Z /\ speedText numberText obj = EmptyString)
  \/ ((1 <= z)%Z
      /\ speedText numberText obj
         = (" - " ++ numberText (Num (IZR z)) ++ " km/h")%string).
Proof.
  intros E Hz. unfold speedText, gt, lt. rewrite E.
  destruct (Rlt_dec 0 (IZR z)) as [H|H].
  - right. split; [|reflexivity]. apply lt_IZR in H. lia.
  - left. split; [|reflexivity].
    destruct (Z.eq_dec z 0) as [E0|N0]; [exact E0|].
    exfalso. apply H. apply IZR_lt. lia.
Qed.

Lemma cycle_labels st predictions now :
  Forall
    (fun obj =>
       exists z : Z,
         TrackedObject.speed obj = Num (IZR z) /\ (0 <= z <= 30)%Z
         /\ ((z = 0%Z
              /\ label numberText obj
                 = (TrackedObject.class obj ++ " ("
                    ++ TrackedObject.action obj ++ ")")%string)
             \/ ((1 <= z)%Z
                 /\ label numberText obj
                    = (TrackedObject.class obj ++ " ("
                       ++ TrackedObject.action obj ++ ")"
                       ++ " - " ++ numberText (Num (IZR z)) ++ " km/h")%string)))
    (trackedObjects (updateTrackedObjects random st predictions now)).
Proof.
  eapply Forall_impl; [|apply cycle_consistent].
  intros obj (_ & _ & (z & E & Hz) & _). exists z.
  split; [exact E|]. split; [exact Hz|]. unfold label.
  destruct (speedText_integer obj z E (proj1 Hz)) as [[H0 ->] | [H1 ->]].
  - left. split; [exact H0|].
    assert (Hnil : forall s : string, (s ++ EmptyString)%string = s).
    { induction s as [|c s IH]; cbn [String.append]; [reflexivity|].
      now rewrite IH. }
    now rewrite Hnil.
  - right. split; [exact H1 | reflexivity].
Qed.

End PublishedLabels.

(** X18.  The label drawn for a record that the engine publishes shows
    a speed exactly when that speed is at least 1 km/h, and the speed
    shown is an integer between 1 and 30; at speed 0 the label is the
    class followed by the action in parentheses. *)
Theorem published_labels :
  forall (numberText : number -> string) random st predictions now,
    Forall
      (fun obj =>
         exists z : Z,
           TrackedObject.speed obj = Num (IZR z) /\ (0 <= z <= 30)%Z
           /\ ((z = 0%Z
                /\ label numberText obj
                   = (TrackedObject.class obj ++ " ("
                      ++ TrackedObject.action obj ++ ")")%string)
               \/ ((1 <= z)%Z
                   /\ label numberText obj
                      = (TrackedObject.class obj ++ " ("
                         ++ TrackedObject.action obj ++ ")"
                         ++ " - " ++ numberText (Num (IZR z))
                         ++ " km/h")%string)))
      (trackedObjects (updateTrackedObjects random st predictions now)).
Proof. exact cycle_labels. Qed.

(** ** Following one object *)

Lemma pushPosition_length_min (h : list Position.t) (s : Position.t) :
  (length h <= POSITION_HISTORY)%nat ->
  length (pushPosition h s) = Nat.min (length h + 1) POSITION_HISTORY.
Proof.
  intros H. destruct (pushPosition_cases h s) as [[Hlt ->] | [Hge ->]];
    rewrite length_app; cbn [length].
  - lia.
  - unfold POSITION_HISTORY in *. destruct h; simpl in *; lia.
Qed.

Section Following.
Variable random : RandomSource.

Lemma follows_gate (pred next : Detection.t) (t : TrackedObject.t) :
  TrackedObject.class t = Detection.class pred ->
  TrackedObject.bbox t = Detection.bbox pred ->
  follows pred next -> withinGate next t.
Proof.
  intros Hc Hb (Hclass & ox & oy & px & py & Eo & Ep & Hx & Hy).
  split; [congruence|]. exists ox, oy, px, py. rewrite Hb. now repeat split.
Qed.

Lemma solo_step st t pred next now :
  trackedObjects st = [t] ->
  TrackedObject.class t = Detection.class pred ->
  TrackedObject.bbox t = Detection.bbox pred ->
  TrackedObject.id t <> EmptyString ->
  follows pred next ->
  exists t',
    trackedObjects (updateTrackedObjects random st [next] now) = [t']
    /\ TrackedObject.class t' = Detection.class next
    /\ TrackedObject.bbox t' = Detection.bbox next
    /\ TrackedObject.id t' = TrackedObject.id t
    /\ TrackedObject.positions t'
       = pushPosition (TrackedObject.positions t)
           (sampleOf next (Num (IZR now))).
Proof.
  intros Est Hc Hb Hid Hf.
  assert (E : existingObject (trackedObjects st) next = Some t).
  { rewrite Est. apply existingObject_first. exists [], [].
    split; [reflexivity|]. split; [now apply (follows_gate pred)|].
    intros o []. }
  rewrite updateTrackedObjects_unfiltered, mapPredictions_cons.
  rewrite trackPrediction_fields. cbn [fst snd mapPredictions].
  unfold historyOf. rewrite E, (chooseId_reuse random _ _ _ Hid).
  eexists. split; [reflexivity|]. cbn. repeat split.
Qed.

Lemma solo_run (sightings : list (Detection.t * Z)) :
  forall st t pred,
    trackedObjects st = [t] ->
    TrackedObject.class t = Detection.class pred ->
    TrackedObject.bbox t = Detection.bbox pred ->
    TrackedObject.id t <> EmptyString ->
    (length (TrackedObject.positions t) <= POSITION_HISTORY)%nat ->
    trail pred sightings ->
    forall j out,
      nth_error (runCycles random st (soloCycles sightings)) j = Some out ->
      exists t',
        out = [t'] /\ TrackedObject.id t' = TrackedObject.id t
        /\ length (TrackedObject.positions t')
           = Nat.min (length (TrackedObject.positions t) + j + 1)
               POSITION_HISTORY.
Proof.
  induction sightings as [|[next now] rest IH];
    intros st t pred Est Hc Hb Hid Hlen Htrail j out Hj.
  - destruct j; discriminate.
  - destruct Htrail as [Hf Htrail].
    destruct (solo_step st t pred next now Est Hc Hb Hid Hf)
      as (t' & Eout & Hc' & Hb' & Hid' & Hpos').
    assert (Hlen' : length (TrackedObject.positions t')
                    = Nat.min (length (TrackedObject.positions t) + 1)
                        POSITION_HISTORY)
      by (rewrite Hpos'; now apply pushPosition_length_min).
    cbn [soloCycles map runCycles fst snd] in Hj.
    destruct j as [|j]; cbn [nth_error] in Hj.
    + injection Hj as Hj. exists t'. split; [now rewrite <- Hj|].
      split; [exact Hid'|]. rewrite Hlen'. f_equal. lia.
    + assert (Hid1 : TrackedObject.id t' <> EmptyString)
        by now rewrite Hid'.
      assert (Hlen1 : (length (TrackedObject.positions t')
                       <= POSITION_HISTORY)%nat) by lia.
      destruct (IH (updateTrackedObjects random st [next] now) t' next
                  Eout Hc' Hb' Hid1 Hlen1 Htrail j out Hj)
        as (t'' & Eo & Hid'' & Hlen'').
      exists t''. split; [exact Eo|]. split; [congruence|].
      rewrite Hlen'', Hlen'. lia.
Qed.

Lemma solo_first (first : Detection.t) (now : Z) (calls : nat) :
  exists t,
    trackedObjects (updateTrackedObjects random (mkEngine [] calls) [first] now)
    = [t]
    /\ TrackedObject.class t = Detection.class first
    /\ TrackedObject.bbox t = Detection.bbox first
    /\ TrackedObject.id t = freshId random first calls
    /\ length (TrackedObject.positions t) = 1%nat.
Proof.
  rewrite updateTrackedObjects_unfiltered, mapPredictions_cons.
  rewrite (unmatched_record random [] _ first calls eq_refl).
  cbn [fst snd mapPredictions trackedObjects]. eexists.
  split; [reflexivity|]. cbn. repeat split.
Qed.

Lemma solo_track (first : Detection.t) (now : Z)
  (sightings : list (Detection.t * Z)) :
  trail first sightings ->
  forall j out,
    nth_error
      (runCycles random initialEngine (soloCycles ((first, now) :: sightings)))
      j = Some out ->
    exists t,
      out = [t] /\ TrackedObject.id t = freshId random first 0
      /\ length (TrackedObject.positions t)
         = Nat.min (j + 1) POSITION_HISTORY.
Proof.
  intros Htrail j out Hj.
  destruct (solo_first first now 0) as (t & Eout & Hc & Hb & Hid & Hlen).
  cbn [soloCycles map runCycles fst snd] in Hj. fold initialEngine in Eout.
  destruct j as [|j]; cbn [nth_error] in Hj.
  - injection Hj as Hj. exists t. split; [now rewrite <- Hj|].
    split; [exact Hid|]. rewrite Hlen. unfold POSITION_HISTORY. reflexivity.
  - assert (Hid1 : TrackedObject.id t <> EmptyString)
      by (rewrite Hid; apply freshId_nonempty).
    assert (Hlen1 : (length (TrackedObject.positions t)
                     <= POSITION_HISTORY)%nat)
      by (rewrite Hlen; unfold POSITION_HISTORY; lia).
    destruct (solo_run sightings
                (updateTrackedObjects random initialEngine [first] now)
                t first Eout Hc Hb Hid1 Hlen1 Htrail j out Hj)
      as (t' & Eo & Hid' & Hlen').
    exists t'. split; [exact Eo|]. split; [congruence|].
    rewrite Hlen', Hlen. f_equal; lia.
Qed.

End Following.

(** X19.  An object that the detector reports alone in every cycle,
    each time with the same class and less than 50 pixels on each axis
    from its previous sighting, is one track from the empty engine on:
    every cycle publishes a single record, all records carry the
    identifier drawn at the first sighting, and the history of the
    record of cycle number [j], counted from 0, holds [j + 1] samples
    up to 15 and 15 samples from then on. *)
Theorem lone_object_keeps_its_track :
  forall random (first : Detection.t) (now : Z)
         (sightings : list (Detection.t * Z)),
    trail first sightings ->
    forall j out,
      nth_error
        (runCycles random initialEngine
           (soloCycles ((first, now) :: sightings)))
        j = Some out ->
      exists t,
        out = [t] /\ TrackedObject.id t = freshId random first 0
        /\ length (TrackedObject.positions t)
           = Nat.min (j + 1) POSITION_HISTORY.
Proof. exact solo_track. Qed.

Lemma lone_object_keeps_its_track_witness :
  exists t,
    trackedObjects
      (updateTrackedObjects Scene.fives
         (updateTrackedObjects Scene.fives initialEngine
            [Scene.firstPerson] 33)
         [Scene.secondPerson] 66)
    = [t]
    /\ TrackedObject.id t = freshId Scene.fives Scene.firstPerson 0
    /\ length (TrackedObject.positions t) = Nat.min (1 + 1) POSITION_HISTORY.
Proof.
  apply (lone_object_keeps_its_track Scene.fives Scene.firstPerson 33
           [(Scene.secondPerson, 66%Z)]).
  - split; [|exact I]. split; [reflexivity|].
    exists (95 + 10)%R, (90 + 10)%R, (85 + 10)%R, (90 + 10)%R.
    split; [apply centerOf_scene_box|]. split; [apply centerOf_scene_box|].
    split; apply Rabs_def1; lra.
  - reflexivity.
Defined.

(** * calculateSpeed in binary64 *)

(** ** The array of speeds *)

Lemma b64_speedStep_survives (speeds : list B64.number)
  (prev curr : B64.Position.t) :
  B64.speedStep speeds prev curr
  = if B64.survives (prev, curr)
    then speeds ++ [B64.instantSpeed prev curr]
    else speeds.
Proof.
  unfold B64.speedStep, B64.survives, B64.instantSpeed.
  destruct (PrimFloat.ltb _ (B64.pixelDistance prev curr));
    destruct (PrimFloat.ltb _ (B64.elapsedSeconds prev curr));
    cbn [andb]; reflexivity.
Qed.

Lemma b64_speedLoop_surviving (rest : list B64.Position.t) :
  forall (speeds : list B64.number) (prev : B64.Position.t),
    B64.speedLoop speeds prev rest
    = speeds ++ B64.survivingSpeeds (prev :: rest).
Proof.
  unfold B64.survivingSpeeds.
  induction rest as [|curr rest IH]; intros speeds prev.
  - simpl. now rewrite app_nil_r.
  - cbn [B64.speedLoop B64.consecutivePairs].
    rewrite IH, b64_speedStep_survives.
    cbn [filter]. destruct (B64.survives (prev, curr)); [|reflexivity].
    cbn [map]. now rewrite <- app_assoc.
Qed.

Lemma b64_collectSpeeds_surviving (positions : list B64.Position.t) :
  B64.collectSpeeds positions = B64.survivingSpeeds positions.
Proof.
  destruct positions as [|p0 rest]; [reflexivity|].
  unfold B64.collectSpeeds. now rewrite b64_speedLoop_surviving.
Qed.

Lemma b64_consecutivePairs_length (positions : list B64.Position.t) :
  length (B64.consecutivePairs positions) = (length positions - 1)%nat.
Proof.
  induction positions as [|p0 rest IH]; [reflexivity|].
  destruct rest as [|p1 rest]; [reflexivity|].
  cbn [B64.consecutivePairs length] in *. rewrite IH. lia.
Qed.

Lemma b64_calculateSpeed_unfold (positions : list B64.Position.t) :
  B64.calculateSpeed positions
  = if (length positions <? 2)%nat then PrimFloat.zero
    else match B64.survivingSpeeds positions with
         | [] => PrimFloat.zero
         | _ :: _ =>
             B64.Math_round
               (B64.average
                  (slice_last B64.SPEED_SMOOTHING_WINDOW
                     (B64.survivingSpeeds positions)))
         end.
Proof.
  unfold B64.calculateSpeed. rewrite b64_collectSpeeds_surviving.
  destruct (length positions <? 2)%nat; [reflexivity|].
  now destruct (B64.survivingSpeeds positions).
Qed.

Lemma b64_abs_cases (a : B64.number) :
  a = PrimFloat.abs a \/ a = PrimFloat.opp (PrimFloat.abs a).
Proof.
  destruct (FloatOps.Prim2SF a) as [s|s| |s m e] eqn:E.
  - destruct s; [right|left]; apply FloatAxioms.Prim2SF_inj;
      now rewrite ?FloatAxioms.opp_spec, FloatAxioms.abs_spec, E.
  - destruct s; [right|left]; apply FloatAxioms.Prim2SF_inj;
      now rewrite ?FloatAxioms.opp_spec, FloatAxioms.abs_spec, E.
  - left. apply FloatAxioms.Prim2SF_inj.
    now rewrite FloatAxioms.abs_spec, E.
  - destruct s; [right|left]; apply FloatAxioms.Prim2SF_inj;
      now rewrite ?FloatAxioms.opp_spec, FloatAxioms.abs_spec, E.
Qed.

(** C2.  In binary64, when every consecutive pair of a history
    survives the filters, [calculateSpeed] is [Math.round] of the
    average of the last three (or fewer) instantaneous speeds, each of
    them the Euclidean pixel distance times 0.015, divided by the
    elapsed seconds, times 3.6, every operation rounded.  Two samples
    whose x coordinates differ by 100 pixels in either direction, whose
    y coordinates do not differ and whose timestamps differ by 1000 ms
    give 5, wherever they lie in the frame and on the clock. *)
Theorem calculateSpeed_rounded_average :
  (forall positions,
      B64.consecutivePairs positions <> [] ->
      forallb B64.survives (B64.consecutivePairs positions) = true ->
      B64.calculateSpeed positions
      = B64.Math_round
          (B64.average
             (slice_last B64.SPEED_SMOOTHING_WINDOW
                (map B64.speedOfPair (B64.consecutivePairs positions)))))
  /\ (forall prev curr,
        B64.speedOfPair (prev, curr)
        = PrimFloat.mul
            (PrimFloat.div
               (PrimFloat.mul (B64.pixelDistance prev curr)
                  B64.PIXEL_TO_METER)
               (B64.elapsedSeconds prev curr))
            B64.MS_TO_KMH
        /\ B64.pixelDistance prev curr
           = PrimFloat.sqrt
               (PrimFloat.add
                  (PrimFloat.mul
                     (PrimFloat.sub (B64.Position.x curr) (B64.Position.x prev))
                     (PrimFloat.sub (B64.Position.x curr) (B64.Position.x prev)))
                  (PrimFloat.mul
                     (PrimFloat.sub (B64.Position.y curr) (B64.Position.y prev))
                     (PrimFloat.sub (B64.Position.y curr) (B64.Position.y prev))))
        /\ B64.elapsedSeconds prev curr
           = PrimFloat.div
               (PrimFloat.sub (B64.Position.timestamp curr)
                  (B64.Position.timestamp prev))
               (B64.of_Z 1000))
  /\ (forall prev curr,
        PrimFloat.abs
          (PrimFloat.sub (B64.Position.x curr) (B64.Position.x prev))
        = B64.of_Z 100 ->
        PrimFloat.abs
          (PrimFloat.sub (B64.Position.y curr) (B64.Position.y prev))
        = B64.of_Z 0 ->
        PrimFloat.sub (B64.Position.timestamp curr)
          (B64.Position.timestamp prev)
        = B64.of_Z 1000 ->
        B64.calculateSpeed [prev; curr] = B64.of_Z 5)
  /\ B64.calculateSpeed [B64.sample 0 0 0; B64.sample 100 0 1000]
     = B64.of_Z 5.
Proof.
  split; [|split; [|split]].
  - intros positions Hne Hall.
    rewrite b64_calculateSpeed_unfold. unfold B64.survivingSpeeds.
    rewrite (filter_all _ _ Hall).
    assert (Hlen : (length positions <? 2)%nat = false).
    { apply Nat.ltb_ge.
      assert (H := b64_consecutivePairs_length positions).
      destruct (B64.consecutivePairs positions); [easy|]. simpl in H. lia. }
    rewrite Hlen.
    destruct (B64.consecutivePairs positions) as [|pair pairs]; [easy|].
    reflexivity.
  - intros prev curr. repeat split.
  - intros prev curr Hx Hy Ht.
    unfold B64.calculateSpeed, B64.collectSpeeds, B64.speedLoop,
      B64.speedStep, B64.pixelDistance, B64.elapsedSeconds.
    rewrite Ht.
    destruct (b64_abs_cases
                (PrimFloat.sub (B64.Position.x curr) (B64.Position.x prev)))
      as [Ex|Ex];
      destruct (b64_abs_cases
                  (PrimFloat.sub (B64.Position.y curr) (B64.Position.y prev)))
        as [Ey|Ey];
      rewrite Hx in Ex; rewrite Hy in Ey; rewrite Ex, Ey;
      vm_compute; reflexivity.
  - vm_compute. reflexivity.
Qed.

Lemma calculateSpeed_rounded_average_witness :
  B64.calculateSpeed [B64.sample 0 0 0; B64.sample 15 0 540]
  = B64.Math_round
      (B64.average
         (slice_last B64.SPEED_SMOOTHING_WINDOW
            (map B64.speedOfPair
               (B64.consecutivePairs
                  [B64.sample 0 0 0; B64.sample 15 0 540]))))
  /\ B64.calculateSpeed
       [B64.sample 320 240 1700000001000; B64.sample 220 240 1700000002000]
     = B64.of_Z 5.
Proof.
  split.
  - apply (proj1 calculateSpeed_rounded_average).
    + discriminate.
    + vm_compute. reflexivity.
  - apply (proj1 (proj2 (proj2 calculateSpeed_rounded_average)));
      vm_compute; reflexivity.
Defined.

(** X20.  Three histories on which rounding decides, with the values
    that the source computes.  The pair (0,0,0), (15,0,27) has a speed
    of 29.999999999999996 km/h, the binary64 value just below 30: it
    passes the cutoff, and the result is 30.  The pair (0,0,0),
    (15,0,540) has a speed of 1.4999999999999998 km/h, the value just
    below 1.5, and the result is 1.  The pair (100,100,0),
    (103,100,324) has a speed of 0.49999999999999994 km/h, the value
    just below 0.5, and the result is 0. *)
Theorem rounding_decides :
  (B64.survivingSpeeds [B64.sample 0 0 0; B64.sample 15 0 27]
   = [PrimFloat.next_down (B64.of_Z 30)]
   /\ B64.calculateSpeed [B64.sample 0 0 0; B64.sample 15 0 27]
      = B64.of_Z 30)
  /\ (B64.survivingSpeeds [B64.sample 0 0 0; B64.sample 15 0 540]
      = [PrimFloat.next_down (PrimFloat.div (B64.of_Z 3) (B64.of_Z 2))]
      /\ B64.calculateSpeed [B64.sample 0 0 0; B64.sample 15 0 540]
         = B64.of_Z 1)
  /\ (B64.survivingSpeeds [B64.sample 100 100 0; B64.sample 103 100 324]
      = [PrimFloat.next_down (PrimFloat.div (B64.of_Z 1) (B64.of_Z 2))]
      /\ B64.calculateSpeed [B64.sample 100 100 0; B64.sample 103 100 324]
         = B64.of_Z 0).
Proof. vm_compute. repeat split. Qed.

(** ** The sign-and-mantissa form of binary64 values *)

Section Binary64.
Import SpecFloat.
Local Open Scope Z_scope.

Lemma digits2_pos_size (p : positive) : digits2_pos p = Pos.size p.
Proof. induction p; simpl; congruence. Qed.

Lemma Zdigits2_log2 (m : Z) : 0 < m -> Zdigits2 m = Z.log2 m + 1.
Proof.
  destruct m as [|p|p]; try lia. intros _.
  unfold Zdigits2. rewrite digits2_pos_size.
  destruct p; simpl; lia.
Qed.

Lemma Zdigits2_below (m d : Z) : 0 < m -> (Zdigits2 m <= d <-> m < 2 ^ d).
Proof.
  intros H. rewrite (Zdigits2_log2 m H), (Z.log2_lt_pow2 m d H). lia.
Qed.

Lemma below_exponent (m k : Z) : 0 < m -> m < 2 ^ k -> 0 < k.
Proof.
  intros Hm H. destruct (Z.lt_trichotomy k 0) as [Hk|[Hk|Hk]]; [| |easy].
  - rewrite Z.pow_neg_r in H by easy. lia.
  - subst. simpl in H. lia.
Qed.

Lemma shr_m_of_loc (m : Z) (l : location) : shr_m (shr_record_of_loc m l) = m.
Proof. destruct l as [|[]]; reflexivity. Qed.

Lemma shr_1_div2 (mrs : shr_record) :
  0 <= shr_m mrs -> shr_m (shr_1 mrs) = Z.div2 (shr_m mrs).
Proof.
  destruct mrs as [m r s]. simpl. intros H.
  destruct m as [|[p|p|]|p]; try reflexivity; lia.
Qed.

Lemma iter_shr_1 (n : positive) :
  forall mrs, 0 <= shr_m mrs ->
    shr_m (iter_pos shr_1 n mrs) = Z.shiftr (shr_m mrs) (Zpos n).
Proof.
  assert (H1 : forall mrs, 0 <= shr_m mrs ->
                 shr_m (shr_1 mrs) = Z.shiftr (shr_m mrs) 1
                 /\ 0 <= shr_m (shr_1 mrs)).
  { intros mrs H. rewrite (shr_1_div2 mrs H), Z.div2_spec. split; [easy|].
    now apply Z.shiftr_nonneg. }
  induction n as [n IH|n IH|]; intros mrs H; cbn [iter_pos].
  - destruct (H1 mrs H) as [E1 N1].
    assert (N2 : 0 <= shr_m (iter_pos shr_1 n (shr_1 mrs))).
    { rewrite (IH _ N1). now apply Z.shiftr_nonneg. }
    rewrite (IH _ N2), (IH _ N1), E1, !Z.shiftr_shiftr by lia.
    f_equal. lia.
  - assert (N2 : 0 <= shr_m (iter_pos shr_1 n mrs)).
    { rewrite (IH _ H). now apply Z.shiftr_nonneg. }
    rewrite (IH _ N2), (IH _ H), Z.shiftr_shiftr by lia.
    f_equal. lia.
  - now apply H1.
Qed.

Lemma shiftr_below (m n k : Z) :
  0 <= m -> 0 < n -> m < 2 ^ k -> 0 <= k -> Z.shiftr m n < 2 ^ (k - n) \/ Z.shiftr m n = 0.
Proof.
  intros Hm Hn H Hk. rewrite Z.shiftr_div_pow2 by lia.
  destruct (Z_lt_le_dec k n) as [L|L].
  - right. apply Z.div_small. split; [easy|].
    apply (Z.lt_le_trans _ _ _ H). apply Z.pow_le_mono_r; lia.
  - left. apply Z.div_lt_upper_bound; [apply Z.pow_pos_nonneg; lia|].
    rewrite <- Z.pow_add_r by lia. now replace (n + (k - n)) with k by lia.
Qed.


Ltac unfold_format :=
  cbv [fexp emin FloatOps.prec FloatOps.emax] in *.

Lemma shr_fexp_bound (m e : Z) (l : location) (B : Z) :
  0 <= m < 2 ^ (B - e) -> -1074 <= B ->
  0 <= shr_m (fst (shr_fexp FloatOps.prec FloatOps.emax m e l))
    < 2 ^ (B - snd (shr_fexp FloatOps.prec FloatOps.emax m e l)).
Proof.
  intros [Hm Hlt] HB.
  assert (He : e <= B).
  { destruct (Z_lt_le_dec B e) as [L|L]; [|easy].
    rewrite Z.pow_neg_r in Hlt by lia. lia. }
  assert (Hd : Zdigits2 m + e <= B).
  { destruct (Z.eq_dec m 0) as [->|Hne]; [simpl; lia|].
    assert (Hpos : 0 < m) by lia.
    pose proof (proj2 (Zdigits2_below m (B - e) Hpos) Hlt). lia. }
  unfold shr_fexp, shr.
  destruct (fexp FloatOps.prec FloatOps.emax (Zdigits2 m + e) - e) as [|n|n] eqn:En;
    cbn [fst snd]; rewrite ?shr_m_of_loc; try easy.
  rewrite iter_shr_1, shr_m_of_loc by (rewrite shr_m_of_loc; exact Hm).
  assert (Hf : e + Z.pos n <= B) by (unfold_format; lia).
  split; [now apply Z.shiftr_nonneg|].
  destruct (shiftr_below m (Z.pos n) (B - e) Hm ltac:(lia) Hlt ltac:(lia))
    as [H|H].
  - now replace (B - (e + Z.pos n)) with (B - e - Z.pos n) by lia.
  - rewrite H. apply Z.pow_pos_nonneg; lia.
Qed.

Lemma round_nearest_even_bound (m : Z) (l : location) (k : Z) :
  0 <= m < 2 ^ k -> 0 <= round_nearest_even m l < 2 ^ (k + 1).
Proof.
  intros [Hm Hlt].
  assert (Hk : 0 <= k).
  { destruct (Z_lt_le_dec k 0) as [L|L]; [|easy].
    rewrite Z.pow_neg_r in Hlt by lia. lia. }
  rewrite Z.pow_add_r, Z.pow_1_r by lia.
  assert (H : m <= round_nearest_even m l <= m + 1).
  { destruct l as [|[]]; simpl; try lia. destruct (Z.even m); lia. }
  lia.
Qed.

Lemma binary_round_aux_magnitude (s : bool) (m e : Z) (l : location) (B : Z) :
  0 <= m < 2 ^ (B - e) -> -1074 <= B <= 970 ->
  B64.magnitude s (B + 1) (binary_round_aux FloatOps.prec FloatOps.emax s m e l).
Proof.
  intros Hm HB. unfold binary_round_aux.
  pose proof (shr_fexp_bound m e l B Hm ltac:(lia)) as H1.
  destruct (shr_fexp FloatOps.prec FloatOps.emax m e l) as [mrs' e']. cbn [fst snd] in H1.
  apply (round_nearest_even_bound _ (loc_of_shr_record mrs')) in H1.
  replace (B - e' + 1) with (B + 1 - e') in H1 by lia.
  pose proof (shr_fexp_bound _ e' loc_Exact (B + 1) H1 ltac:(lia)) as H2.
  destruct (shr_fexp FloatOps.prec FloatOps.emax _ e' loc_Exact) as [mrs'' e''].
  cbn [fst snd] in H2.
  destruct (shr_m mrs'') as [|p|p]; cbn [B64.magnitude]; [reflexivity| |lia].
  assert (He : e'' <= B + 1).
  { destruct (Z_lt_le_dec (B + 1) e'') as [L|L]; [|easy].
    rewrite Z.pow_neg_r in H2 by lia. lia. }
  replace (e'' <=? FloatOps.emax - FloatOps.prec) with true
    by (symmetry; apply Z.leb_le; unfold_format; lia).
  cbn [B64.magnitude]. split; [reflexivity|lia].
Qed.

Lemma binary_round_aux_signed (s : bool) (m e : Z) (l : location) :
  B64.signed s (binary_round_aux FloatOps.prec FloatOps.emax s m e l).
Proof.
  unfold binary_round_aux.
  destruct (shr_fexp FloatOps.prec FloatOps.emax m e l) as [mrs' e'].
  destruct (shr_fexp FloatOps.prec FloatOps.emax _ e' loc_Exact) as [mrs'' e''].
  destruct (shr_m mrs''); [reflexivity| |exact I].
  now destruct (e'' <=? FloatOps.emax - FloatOps.prec).
Qed.

Lemma iter_xO (d m : positive) : Z.pos (Pos.iter xO m d) = Z.pos m * 2 ^ Z.pos d.
Proof.
  induction d as [|d IH] using Pos.peano_ind.
  - simpl. lia.
  - rewrite Pos.iter_succ, Pos2Z.inj_xO, IH, Pos2Z.inj_succ, Z.pow_succ_r by lia.
    lia.
Qed.

Lemma shl_align_below (m : positive) (e e' B : Z) :
  Z.pos m < 2 ^ (B - e) ->
  Z.pos (fst (shl_align m e e')) < 2 ^ (B - snd (shl_align m e e'))
  /\ snd (shl_align m e e') = Z.min e e'.
Proof.
  intros H. unfold shl_align.
  destruct (e' - e) as [|d|d] eqn:Ed; cbn [fst snd]; try (split; [easy|lia]).
  split; [|lia]. rewrite iter_xO.
  assert (0 < B - e) by (apply (below_exponent (Z.pos m)); [lia|easy]).
  replace (B - e') with ((B - e) + Z.pos d) by lia.
  rewrite Z.pow_add_r by lia.
  apply Z.mul_lt_mono_pos_r; [apply Z.pow_pos_nonneg; lia|easy].
Qed.

Lemma binary_round_magnitude (s : bool) (m : positive) (e B : Z) :
  Z.pos m < 2 ^ (B - e) -> -1074 <= B <= 970 ->
  B64.magnitude s (B + 1) (binary_round FloatOps.prec FloatOps.emax s m e).
Proof.
  intros H HB. unfold binary_round.
  destruct (shl_align_below m e
              (fexp FloatOps.prec FloatOps.emax (Z.pos (digits2_pos m) + e)) B H) as [H1 _].
  destruct (shl_align m e _) as [mz ez]. cbn [fst snd] in H1.
  apply binary_round_aux_magnitude; [lia|easy].
Qed.


Lemma magnitude_mono (s : bool) (B B' : Z) (x : spec_float) :
  B64.magnitude s B x -> B <= B' -> B64.magnitude s B' x.
Proof.
  destruct x as [s'|s'| |s' m e]; cbn [B64.magnitude]; try easy.
  intros [-> H] HB. split; [reflexivity|].
  assert (0 < B - e) by (apply (below_exponent (Z.pos m)); [lia|easy]).
  apply (Z.lt_le_trans _ _ _ H). apply Z.pow_le_mono_r; lia.
Qed.

Lemma SFadd_magnitude (B : Z) (x y : spec_float) :
  B64.magnitude false B x -> B64.magnitude false B y -> -1074 <= B <= 969 ->
  B64.magnitude false (B + 2) (SFadd FloatOps.prec FloatOps.emax x y).
Proof.
  intros Hx Hy HB.
  destruct x as [sx|sx| |sx mx ex]; cbn [B64.magnitude] in Hx; try easy;
    destruct y as [sy|sy| |sy my ey]; cbn [B64.magnitude] in Hy; try easy.
  - subst. reflexivity.
  - cbn [SFadd]. destruct Hy as [-> Hy]. split; [reflexivity|].
    apply (magnitude_mono false B (B + 2) (S754_finite false my ey));
      [now split|lia].
  - cbn [SFadd]. destruct Hx as [-> Hx]. split; [reflexivity|].
    apply (magnitude_mono false B (B + 2) (S754_finite false mx ex));
      [now split|lia].
  - destruct Hx as [-> Hx], Hy as [-> Hy]. cbn [SFadd cond_Zopp].
    destruct (shl_align_below mx ex (Z.min ex ey) B Hx) as [Hx1 Hx2].
    destruct (shl_align_below my ey (Z.min ex ey) B Hy) as [Hy1 Hy2].
    rewrite Hx2 in Hx1. rewrite Hy2 in Hy1.
    replace (Z.min ex (Z.min ex ey)) with (Z.min ex ey) in Hx1 by lia.
    replace (Z.min ey (Z.min ex ey)) with (Z.min ex ey) in Hy1 by lia.
    cbn [Z.add binary_normalize].
    replace (B + 2) with ((B + 1) + 1) by lia.
    apply binary_round_magnitude; [|lia].
    rewrite Pos2Z.inj_add.
    assert (0 < B - Z.min ex ey)
      by (apply (below_exponent (Z.pos (fst (shl_align mx ex (Z.min ex ey)))));
          [lia|easy]).
    replace (B + 1 - Z.min ex ey) with ((B - Z.min ex ey) + 1) by lia.
    rewrite Z.pow_add_r, Z.pow_1_r by lia. lia.
Qed.

Lemma SFdiv_magnitude (B : Z) (x : spec_float) (my : positive) (ey : Z) :
  B64.magnitude false B x -> -1074 <= B <= 900 -> -60 <= ey <= 0 ->
  B64.magnitude false (B + 61) (SFdiv FloatOps.prec FloatOps.emax x (S754_finite false my ey)).
Proof.
  intros Hx HB Hey.
  destruct x as [sx|sx| |sx mx ex]; cbn [B64.magnitude] in Hx; try easy.
  - subst. reflexivity.
  - destruct Hx as [-> Hx]. cbn [SFdiv xorb].
    unfold SFdiv_core_binary.
    set (e' := Z.min _ (ex - ey)).
    assert (He' : e' <= ex - ey) by (unfold e'; lia).
    assert (Hex : 0 < B - ex)
      by (apply (below_exponent (Z.pos mx)); [lia|easy]).
    set (m' := match ex - ey - e' with
               | 0 => Z.pos mx
               | Z.pos _ => Z.shiftl (Z.pos mx) (ex - ey - e')
               | Z.neg _ => 0
               end).
    assert (Hm' : 0 <= m' < 2 ^ (B - ey - e')).
    { unfold m'. destruct (ex - ey - e') as [|p|p] eqn:Es; [| |lia].
      - replace (B - ey - e') with (B - ex) by lia. lia.
      - rewrite Z.shiftl_mul_pow2 by lia. split; [lia|].
        replace (B - ey - e') with ((B - ex) + Z.pos p) by lia.
        rewrite Z.pow_add_r by lia.
        apply Z.mul_lt_mono_pos_r; [apply Z.pow_pos_nonneg; lia|easy]. }
    assert (Hq : 0 <= m' / Z.pos my < 2 ^ (B - ey - e')).
    { split; [apply Z.div_pos; lia|].
      apply Z.div_lt_upper_bound; [lia|]. nia. }
    unfold Z.div in Hq. destruct (Z.div_eucl m' (Z.pos my)) as [q r].
    apply (magnitude_mono false ((B - ey) + 1)); [|lia].
    apply binary_round_aux_magnitude; [easy|lia].
Qed.

Lemma SFmul_signed (x y : spec_float) :
  B64.signed false x -> B64.signed false y -> B64.signed false (SFmul FloatOps.prec FloatOps.emax x y).
Proof.
  destruct x as [sx|sx| |sx mx ex], y as [sy|sy| |sy my ey];
    cbn [B64.signed SFmul]; intros; subst; try easy.
  apply binary_round_aux_signed.
Qed.

Lemma SFdiv_signed (x y : spec_float) :
  B64.signed false x -> B64.signed false y -> B64.signed false (SFdiv FloatOps.prec FloatOps.emax x y).
Proof.
  destruct x as [sx|sx| |sx mx ex], y as [sy|sy| |sy my ey];
    cbn [B64.signed SFdiv]; intros; subst; try easy.
  destruct (SFdiv_core_binary _ _ _ _ _ _) as [[mz ez] lz].
  apply binary_round_aux_signed.
Qed.

(** What lies above a number that is not negative is not negative. *)
Lemma SFltb_signed (c x : spec_float) :
  B64.signed false c -> SFltb c x = true -> B64.signed false x.
Proof.
  unfold SFltb.
  destruct c as [sc|sc| |sc mc ec], x as [sx|sx| |sx mx ex];
    cbn [B64.signed SFcompare]; intros; subst; try easy;
    destruct sx; easy.
Qed.

Lemma SFltb_magnitude (x : spec_float) (mc : positive) (ec : Z) :
  valid_binary FloatOps.prec FloatOps.emax x = true -> B64.signed false x ->
  SFltb x (S754_finite false mc ec) = true ->
  B64.magnitude false (ec + 53) x.
Proof.
  unfold SFltb.
  destruct x as [sx|sx| |sx mx ex]; cbn [B64.signed SFcompare valid_binary B64.magnitude];
    intros Hv Hs Hlt; subst; try easy.
  split; [reflexivity|].
  assert (He : ex <= ec).
  { destruct (Z.compare_spec ex ec); [lia|lia|easy]. }
  unfold bounded, canonical_mantissa in Hv.
  apply andb_prop in Hv. destruct Hv as [Hc _].
  apply Z.eqb_eq in Hc.
  assert (Hd : Zdigits2 (Z.pos mx) <= 53) by (simpl; unfold_format; lia).
  apply Zdigits2_below in Hd; [|lia].
  apply (Z.lt_le_trans _ _ _ Hd). apply Z.pow_le_mono_r; lia.
Qed.

Lemma SFcompare_antisym (x y : spec_float) :
  SFcompare y x = option_map CompOpp (SFcompare x y).
Proof.
  destruct x as [sx|sx| |sx mx ex], y as [sy|sy| |sy my ey];
    cbn [SFcompare option_map]; try reflexivity;
    try (destruct sx; reflexivity); try (destruct sy; reflexivity);
    try (destruct sx, sy; reflexivity).
  assert (Hm : Pos.compare_cont Eq my mx = CompOpp (Pos.compare_cont Eq mx my))
    by (now rewrite Pos.compare_cont_antisym).
  f_equal. rewrite (Z.compare_antisym ex ey), Hm.
  destruct sx, sy; try reflexivity;
    destruct (ex ?= ey); cbn [CompOpp]; try reflexivity.
Qed.

Lemma SFleb_not_SFltb (x y : spec_float) :
  SFleb x y = true -> SFltb y x = false.
Proof.
  unfold SFleb, SFltb. rewrite (SFcompare_antisym x y).
  destruct (SFcompare x y) as [[]|]; easy.
Qed.

Lemma SFltb_not_SFeqb (x y : spec_float) :
  SFltb x y = true -> SFeqb y x = false.
Proof.
  unfold SFeqb, SFltb. rewrite (SFcompare_antisym x y).
  destruct (SFcompare x y) as [[]|]; easy.
Qed.

Lemma magnitude_finite (s : bool) (B : Z) (x : spec_float) :
  B64.magnitude s B x ->
  match x with S754_zero _ | S754_finite _ _ _ => True | _ => False end.
Proof. now destruct x. Qed.


End Binary64.

(** ** Finiteness of calculateSpeed *)

Section Binary64Speed.
Import SpecFloat.
Local Open Scope Z_scope.

Lemma b64_isFinite_magnitude (s : bool) (B : Z) (a : B64.number) :
  B64.magnitude s B (FloatOps.Prim2SF a) -> B64.isFinite a = true.
Proof. unfold B64.isFinite. now destruct (FloatOps.Prim2SF a). Qed.

Lemma b64_leb_not_ltb (a b : B64.number) :
  PrimFloat.leb a b = true -> PrimFloat.ltb b a = false.
Proof.
  rewrite FloatAxioms.leb_spec, FloatAxioms.ltb_spec.
  apply SFleb_not_SFltb.
Qed.

Lemma b64_ltb_not_eqb (a b : B64.number) :
  PrimFloat.ltb a b = true -> PrimFloat.eqb b a = false.
Proof.
  rewrite FloatAxioms.eqb_spec, FloatAxioms.ltb_spec.
  apply SFltb_not_SFeqb.
Qed.

(** The instantaneous speed of a surviving pair is zero or positive,
    and below 32. *)
Lemma b64_survivor_magnitude (prev curr : B64.Position.t) :
  B64.survives (prev, curr) = true ->
  B64.magnitude false 5 (FloatOps.Prim2SF (B64.instantSpeed prev curr)).
Proof.
  unfold B64.survives. intros H.
  apply andb_prop in H. destruct H as [H Hs].
  apply andb_prop in H. destruct H as [Hd Ht].
  rewrite FloatAxioms.ltb_spec in Hd, Ht, Hs.
  assert (Sd : B64.signed false (FloatOps.Prim2SF (B64.pixelDistance prev curr))).
  { refine (SFltb_signed _ _ _ Hd). vm_compute. reflexivity. }
  assert (St : B64.signed false
                 (FloatOps.Prim2SF (B64.elapsedSeconds prev curr))).
  { refine (SFltb_signed _ _ _ Ht). vm_compute. reflexivity. }
  assert (Ss : B64.signed false
                 (FloatOps.Prim2SF (B64.instantSpeed prev curr))).
  { unfold B64.instantSpeed.
    rewrite FloatAxioms.mul_spec, FloatAxioms.div_spec, FloatAxioms.mul_spec.
    apply SFmul_signed; [|vm_compute; reflexivity].
    apply SFdiv_signed; [|exact St].
    apply SFmul_signed; [exact Sd|vm_compute; reflexivity]. }
  assert (E30 : FloatOps.Prim2SF B64.MAX_SPEED_THRESHOLD
                = S754_finite false 8444249301319680 (-48))
    by (vm_compute; reflexivity).
  rewrite E30 in Hs.
  exact (SFltb_magnitude _ _ _ (FloatAxioms.Prim2SF_valid _) Ss Hs).
Qed.

Lemma b64_sum_magnitude (l : list B64.number) :
  forall (acc : B64.number) (B : Z),
    Forall (fun s => B64.magnitude false 5 (FloatOps.Prim2SF s)) l ->
    B64.magnitude false B (FloatOps.Prim2SF acc) ->
    5 <= B -> B + 2 * Z.of_nat (length l) <= 970 ->
    B64.magnitude false (B + 2 * Z.of_nat (length l))
      (FloatOps.Prim2SF (fold_left PrimFloat.add l acc)).
Proof.
  induction l as [|s l IH]; intros acc B Hl Hacc HB Hlen.
  - cbn [fold_left length]. now replace (B + 2 * Z.of_nat 0) with B by lia.
  - cbn [fold_left]. inversion Hl as [|? ? Hs Hl']; subst.
    cbn [length] in *. rewrite Nat2Z.inj_succ in *.
    replace (B + 2 * Z.succ (Z.of_nat (length l)))
      with ((B + 2) + 2 * Z.of_nat (length l)) by lia.
    apply IH; [exact Hl'| |lia|lia].
    rewrite FloatAxioms.add_spec.
    apply SFadd_magnitude; [exact Hacc| |lia].
    apply (magnitude_mono false 5); [exact Hs|lia].
Qed.

Lemma b64_average_finite (l : list B64.number) :
  l <> [] -> (length l <= 3)%nat ->
  Forall (fun s => B64.magnitude false 5 (FloatOps.Prim2SF s)) l ->
  B64.isFinite (B64.average l) = true.
Proof.
  intros Hne Hlen Hl.
  assert (Hsum : B64.magnitude false (5 + 2 * Z.of_nat (length l))
                   (FloatOps.Prim2SF (fold_left PrimFloat.add l PrimFloat.zero))).
  { apply b64_sum_magnitude; [exact Hl| |lia|lia]. vm_compute. reflexivity. }
  apply (magnitude_mono _ _ 11) in Hsum; [|lia].
  unfold B64.average. apply (b64_isFinite_magnitude false (11 + 61)).
  rewrite FloatAxioms.div_spec.
  destruct l as [|a [|b [|c [|d l]]]]; [easy| | | |cbn [length] in Hlen; lia];
    cbn [length].
  - replace (FloatOps.Prim2SF (B64.of_nat 1))
      with (S754_finite false 4503599627370496 (-52))
      by (vm_compute; reflexivity).
    apply SFdiv_magnitude; [exact Hsum|lia|lia].
  - replace (FloatOps.Prim2SF (B64.of_nat 2))
      with (S754_finite false 4503599627370496 (-51))
      by (vm_compute; reflexivity).
    apply SFdiv_magnitude; [exact Hsum|lia|lia].
  - replace (FloatOps.Prim2SF (B64.of_nat 3))
      with (S754_finite false 6755399441055744 (-51))
      by (vm_compute; reflexivity).
    apply SFdiv_magnitude; [exact Hsum|lia|lia].
Qed.

Lemma b64_of_Z_finite (z : Z) : B64.isFinite (B64.of_Z z) = true.
Proof.
  assert (H : forall n, B64.magnitude false 64
                          (FloatOps.Prim2SF (PrimFloat.of_uint63 n))).
  { intros n. rewrite FloatAxioms.of_uint63_spec.
    pose proof (Uint63.to_Z_bounded n) as Hn.
    destruct (Uint63.to_Z n) as [|p|p]; cbn [binary_normalize];
      [reflexivity| |lia].
    apply (binary_round_magnitude false p 0 63); [|lia].
    change (2 ^ (63 - 0)) with Uint63.wB. lia. }
  destruct z as [|p|p]; cbn [B64.of_Z].
  - vm_compute. reflexivity.
  - apply (b64_isFinite_magnitude _ _ _ (H _)).
  - unfold B64.isFinite. rewrite FloatAxioms.opp_spec.
    specialize (H (Uint63.of_Z (- Z.neg p))).
    now destruct (FloatOps.Prim2SF _).
Qed.

Lemma b64_Math_round_finite (a : B64.number) :
  B64.isFinite a = true -> B64.isFinite (B64.Math_round a) = true.
Proof.
  intros H. unfold B64.Math_round.
  destruct (FloatOps.Prim2SF a) as [s|s| |s m [|k|k]]; try exact H.
  cbv zeta.
  destruct (_ / _) as [|r|r]; try apply b64_of_Z_finite.
  destruct s; vm_compute; reflexivity.
Qed.

Lemma b64_survivingSpeeds_magnitude (positions : list B64.Position.t) :
  Forall (fun s => B64.magnitude false 5 (FloatOps.Prim2SF s))
    (B64.survivingSpeeds positions).
Proof.
  unfold B64.survivingSpeeds. apply Forall_forall. intros s Hs.
  apply in_map_iff in Hs. destruct Hs as [[prev curr] [<- Hin]].
  apply filter_In in Hin. destruct Hin as [_ Hsurv].
  now apply b64_survivor_magnitude.
Qed.

Lemma b64_calculateSpeed_finite (positions : list B64.Position.t) :
  B64.isFinite (B64.calculateSpeed positions) = true.
Proof.
  rewrite b64_calculateSpeed_unfold.
  destruct (length positions <? 2)%nat; [vm_compute; reflexivity|].
  destruct (B64.survivingSpeeds positions) as [|s l] eqn:E;
    [vm_compute; reflexivity|].
  apply b64_Math_round_finite, b64_average_finite.
  - intros Hnil. apply (f_equal (@length _)) in Hnil.
    rewrite slice_last_length in Hnil. cbn in Hnil. lia.
  - rewrite slice_last_length. unfold B64.SPEED_SMOOTHING_WINDOW. lia.
  - apply Forall_slice_last. rewrite <- E.
    apply b64_survivingSpeeds_magnitude.
Qed.

End Binary64Speed.

Lemma b64_survives_unfold (prev curr : B64.Position.t) :
  B64.survives (prev, curr)
  = PrimFloat.ltb B64.MIN_MOVEMENT_THRESHOLD (B64.pixelDistance prev curr)
    && PrimFloat.ltb PrimFloat.zero (B64.elapsedSeconds prev curr)
    && PrimFloat.ltb (B64.instantSpeed prev curr) B64.MAX_SPEED_THRESHOLD.
Proof. reflexivity. Qed.

(** C3.  In binary64, [calculateSpeed] returns a finite number for
    every history, whatever its samples hold (infinities and NaN
    included); a history of fewer than 2 samples gives 0; the array of
    speeds holds the speeds of the surviving pairs, in order; a pair
    whose pixel distance is at most 2, whose elapsed time is at most 0
    or whose instantaneous speed is at least 30, and in general every
    pair that fails a test of the loop, leaves the array as it is; a
    pair that contributes has an elapsed time that is not zero and a
    finite speed; the three divisors of the function (1000, the elapsed
    seconds of a contributing pair, the count of the averaged speeds,
    between 1 and 3) are not zero; and when no pair survives the
    result is 0. *)
Theorem calculateSpeed_total_and_filtered :
  (forall positions, B64.isFinite (B64.calculateSpeed positions) = true)
  /\ (forall positions,
        (length positions < 2)%nat ->
        B64.calculateSpeed positions = B64.of_Z 0)
  /\ (forall positions,
        B64.collectSpeeds positions = B64.survivingSpeeds positions)
  /\ (forall speeds prev curr,
        PrimFloat.leb (B64.pixelDistance prev curr)
          B64.MIN_MOVEMENT_THRESHOLD = true
        \/ PrimFloat.leb (B64.elapsedSeconds prev curr) (B64.of_Z 0) = true
        \/ PrimFloat.leb B64.MAX_SPEED_THRESHOLD
             (B64.instantSpeed prev curr) = true ->
        B64.survives (prev, curr) = false
        /\ B64.speedStep speeds prev curr = speeds)
  /\ (forall speeds prev curr,
        B64.survives (prev, curr) = false ->
        B64.speedStep speeds prev curr = speeds)
  /\ (forall speeds prev curr,
        B64.survives (prev, curr) = true ->
        B64.speedStep speeds prev curr
        = speeds ++ [B64.instantSpeed prev curr]
        /\ PrimFloat.eqb (B64.elapsedSeconds prev curr) (B64.of_Z 0) = false
        /\ B64.isFinite (B64.instantSpeed prev curr) = true)
  /\ PrimFloat.eqb (B64.of_Z 1000) (B64.of_Z 0) = false
  /\ (forall positions,
        B64.survivingSpeeds positions <> [] ->
        let count :=
          length (slice_last B64.SPEED_SMOOTHING_WINDOW
                    (B64.survivingSpeeds positions)) in
        (1 <= count <= 3)%nat
        /\ PrimFloat.eqb (B64.of_nat count) (B64.of_Z 0) = false)
  /\ (forall positions,
        B64.survivingSpeeds positions = [] ->
        B64.calculateSpeed positions = B64.of_Z 0).
Proof.
  assert (Hdrop : forall speeds prev curr,
             B64.survives (prev, curr) = false ->
             B64.speedStep speeds prev curr = speeds).
  { intros speeds prev curr H. now rewrite b64_speedStep_survives, H. }
  split; [exact b64_calculateSpeed_finite|].
  split.
  { intros positions H. rewrite b64_calculateSpeed_unfold.
    apply Nat.ltb_lt in H. now rewrite H. }
  split; [exact b64_collectSpeeds_surviving|].
  split.
  { intros speeds prev curr H.
    assert (Hs : B64.survives (prev, curr) = false).
    { rewrite b64_survives_unfold.
      destruct H as [H|[H|H]]; apply b64_leb_not_ltb in H.
      - now rewrite H.
      - cbn [B64.of_Z] in H. rewrite H. now rewrite andb_false_r.
      - rewrite H. now rewrite andb_false_r. }
    split; [exact Hs|now apply Hdrop]. }
  split; [exact Hdrop|].
  split.
  { intros speeds prev curr H. split; [|split].
    - now rewrite b64_speedStep_survives, H.
    - rewrite b64_survives_unfold in H.
      apply andb_prop in H. destruct H as [H _].
      apply andb_prop in H. destruct H as [_ H].
      now apply b64_ltb_not_eqb.
    - apply (b64_isFinite_magnitude false 5).
      now apply b64_survivor_magnitude. }
  split; [vm_compute; reflexivity|].
  split.
  { intros positions H. cbv zeta. rewrite slice_last_length.
    unfold B64.SPEED_SMOOTHING_WINDOW.
    destruct (B64.survivingSpeeds positions) as [|a [|b [|c l]]]; [easy| | |];
      cbn [length Nat.min]; (split; [lia|vm_compute; reflexivity]). }
  intros positions H. rewrite b64_calculateSpeed_unfold, H.
  now destruct (length positions <? 2)%nat.
Qed.

Lemma calculateSpeed_total_and_filtered_witness :
  B64.calculateSpeed [B64.sample 7 7 7] = B64.of_Z 0
  /\ (B64.survives (B64.sample 0 0 0, B64.sample 2 0 1000) = false
      /\ B64.speedStep [] (B64.sample 0 0 0) (B64.sample 2 0 1000) = [])
  /\ (B64.survives (B64.sample 0 0 1000, B64.sample 50 0 1000) = false
      /\ B64.speedStep [] (B64.sample 0 0 1000) (B64.sample 50 0 1000) = [])
  /\ (B64.survives (B64.sample 0 0 0, B64.sample 100 0 100) = false
      /\ B64.speedStep [] (B64.sample 0 0 0) (B64.sample 100 0 100) = [])
  /\ (B64.speedStep [] (B64.sample 0 0 0) (B64.sample 15 0 27)
      = [] ++ [B64.instantSpeed (B64.sample 0 0 0) (B64.sample 15 0 27)]
      /\ PrimFloat.eqb
           (B64.elapsedSeconds (B64.sample 0 0 0) (B64.sample 15 0 27))
           (B64.of_Z 0) = false
      /\ B64.isFinite
           (B64.instantSpeed (B64.sample 0 0 0) (B64.sample 15 0 27)) = true)
  /\ ((1 <= length (slice_last B64.SPEED_SMOOTHING_WINDOW
                      (B64.survivingSpeeds
                         [B64.sample 0 0 0; B64.sample 15 0 27])) <= 3)%nat
      /\ PrimFloat.eqb
           (B64.of_nat
              (length (slice_last B64.SPEED_SMOOTHING_WINDOW
                         (B64.survivingSpeeds
                            [B64.sample 0 0 0; B64.sample 15 0 27]))))
           (B64.of_Z 0) = false)
  /\ B64.calculateSpeed [B64.sample 0 0 0; B64.sample 1 0 1000] = B64.of_Z 0.
Proof.
  pose proof calculateSpeed_total_and_filtered
    as (_ & Short & _ & Dropped & _ & Kept & _ & Count & Empty).
  split; [apply Short; simpl; lia|].
  split; [apply Dropped; left; vm_compute; reflexivity|].
  split; [apply Dropped; right; left; vm_compute; reflexivity|].
  split; [apply Dropped; right; right; vm_compute; reflexivity|].
  split; [apply Kept; vm_compute; reflexivity|].
  split; [apply Count; vm_compute; discriminate|].
  apply Empty. vm_compute. reflexivity.
Defined.
